(** * The plist parser of plaso: parse-and-dispatch pipeline

    A shallow embedding of [plaso/parsers/plist.py] (class [PlistParser]:
    [__init__], [GetTopLevel] and the generator [Parse]) together with the
    properties its specification states about it.

    Conventions of the embedding:
    - Python values that reach the parser are the inductive [pyval];
      truthiness ([not x]) is the function [truthy].
    - Exceptions are the inductive [exception]; a call that may raise returns
      a [result].
    - Every call the parser makes on a collaborator (file entry, file object,
      deserializer, file system, plugin, logger) and every attribute store and
      [yield] is recorded, in program order, as an [effect].
    - Event objects are references into a store ([heap]); the attribute store
      of line 153 updates that store, so two yields of one object alias.
    - [Parse] is a generator function.  Calling it builds a [generator] whose
      body has not been entered; [next] runs the body up to the following
      [yield], to its end or to an uncaught exception; [drain] is the
      consumer's loop [for event_object in parser.Parse(file_entry)]. *)

From stdpp Require Import gmap strings list pretty.
From Stdlib Require Import SpecFloat.

Open Scope Z_scope.
Set Warnings "-register-all".

(** ** Values *)

(** The structured values a property list decodes to. *)
Inductive pyval :=
| PNone
| PBool (b : bool)
| PInt (z : Z)
| PFloat (f : spec_float)
| PStr (s : string)
| PData (d : list Byte.byte)
| PDate (t : Z)
| PList (l : list pyval)
| PDict (d : list (string * pyval)).

(** Python truth value testing: [None], [False], numeric zero and empty
    strings and containers are false, everything else is true. *)
Definition truthy (v : pyval) : bool :=
  match v with
  | PNone => false
  | PBool b => b
  | PInt z => negb (z =? 0)
  | PFloat f => match f with S754_zero _ => false | _ => true end
  | PStr s => match s with EmptyString => false | _ => true end
  | PData d => match d with [] => false | _ => true end
  | PDate _ => true
  | PList l => match l with [] => false | _ => true end
  | PDict d => match d with [] => false | _ => true end
  end.

(** ** Exceptions *)

(** The exception classes the parser names in a handler or raises itself,
    each with the text [str(exception)] gives.  A class is caught through its
    base class, so [LookupError] also stands for [KeyError] and [IndexError],
    and [ValueError] for its subclasses.  [WrongPlistPlugin] carries the two
    positional arguments the handler of line 155 reads as [exception[0]] and
    [exception[1]].  [OtherException] is any class none of the handlers
    names ([IOError], [TypeError], ...). *)
Inductive exception :=
| FormatError (msg : string)
| LookupError (msg : string)
| BinasciiError (msg : string)
| ValueError (msg : string)
| AttributeError (msg : string)
| OverflowError (msg : string)
| UnableToParseFile (msg : string)
| WrongPlistPlugin (arg0 arg1 : string)
| OtherException (cls msg : string).

Inductive result (A : Type) :=
| Return (a : A)
| Raise (e : exception).
Arguments Return {A} a.
Arguments Raise {A} e.

(** ** Collaborators *)

Record file_object := {
  get_size : Z;
  stream : list Byte.byte
}.

Record file_system := {
  BasenamePath : string -> string
}.

Record file_entry := {
  name : string;
  GetFileObject : file_object;
  GetFileSystem : file_system
}.

(** An event object is a reference into the store of attribute dictionaries. *)
Definition objid := nat.
Abbreviation attrs := (gmap string pyval).
Abbreviation heap := (gmap objid (gmap string pyval)).

Definition attrs_of (h : heap) (o : objid) : attrs := default ∅ (h !! o).

(** [event_object.plugin = plugin_name] *)
Definition set_plugin (h : heap) (o : objid) (plugin_name : string) : heap :=
  <[o := <["plugin" := PStr plugin_name]> (attrs_of h o)]> h.

(** What iterating [plist_plugin.Process(plist_name, top_level_object)] does:
    the finitely many event objects it hands out, in order, and how the
    iteration ends:
    [None] when it is exhausted, [Some e] when [e] is raised (by the call
    itself when [records] is empty, by the iterator otherwise). *)
Record process_run := {
  records : list objid;
  ending : option exception
}.

Record PlistPlugin := {
  plugin_name : string;
  Process : string -> pyval -> process_run
}.

(** The functions [plist.py] imports and that are not part of it:
    [binplist.readPlist] and [plaso.lib.utils.GetUnicodeString]. *)
Record imports := {
  readPlist : file_object -> result pyval;
  GetUnicodeString : string -> string
}.

(** ** Effects *)

Inductive effect :=
| EGetFileObject
| EGetSize
| EClose
| EReadPlist
| EGetFileSystem
| EBasenamePath (path : string)
| EProcess (plugin plist_name : string)
| ESetPlugin (o : objid) (plugin : string)
| EYield (o : objid)
| ELogDebug (msg : string).

Global Instance effect_eq_dec : EqDecision effect.
Proof. solve_decision. Defined.

(** ** The parser *)

(** [self._plugins]: the registry, a dictionary from plugin names to plugin
    objects, kept in the order [itervalues] enumerates it. *)
Record PlistParser := {
  _plugins : list (string * PlistPlugin)
}.

Definition itervalues {K V : Type} (d : list (K * V)) : list V := map snd d.

Record config := {
  parsers : option (gset string)
}.

Inductive registration_error :=
| HandleRegistrationConflict (identifier : string).

(** Modelled from the spec: [plugin.GetRegisteredPlugins] of
    [plaso/lib/plugin.py], which is not among the sources.  Section 4.3:
    without a filter every available handler is registered; with a filter
    only the handlers whose identifier is in the filter set, in the handlers'
    declaration order; registering two handlers under one identifier is a
    configuration error reported at construction time. *)
Fixpoint GetRegisteredPlugins (available : list PlistPlugin)
    (plugin_filter : option (gset string))
    : registration_error + list (string * PlistPlugin) :=
  match available with
  | [] => inr []
  | p :: rest =>
      match GetRegisteredPlugins rest plugin_filter with
      | inl err => inl err
      | inr registry =>
          let enabled :=
            match plugin_filter with
            | None => true
            | Some ids => bool_decide (plugin_name p ∈ ids)
            end in
          if enabled then
            if bool_decide (plugin_name p ∈ map fst registry)
            then inl (HandleRegistrationConflict (plugin_name p))
            else inr ((plugin_name p, p) :: registry)
          else inr registry
      end
  end.

(** [PlistParser.__init__] (lines 56-66); [available] is the set of classes
    registered under [interface.PlistPlugin]. *)
Definition __init__ (available : list PlistPlugin) (cfg : config)
    : registration_error + PlistParser :=
  let plugin_filter_string := parsers cfg in
  match GetRegisteredPlugins available plugin_filter_string with
  | inl err => inl err
  | inr registry => inr {| _plugins := registry |}
  end.

(** [PlistParser.GetTopLevel] (lines 68-108). *)
Definition GetTopLevel (lib : imports) (file_object : file_object)
    (file_name : string) : result pyval :=
  match readPlist lib file_object with
  | Raise (FormatError msg) =>
      Raise (UnableToParseFile
        ("[PLIST] File is not a plist file: " +:+ GetUnicodeString lib msg))
  | Raise (LookupError msg) | Raise (BinasciiError msg)
  | Raise (ValueError msg) | Raise (AttributeError msg) =>
      Raise (UnableToParseFile
        ("[PLIST] Unable to parse XML file, reason: " +:+ msg))
  | Raise (OverflowError msg) =>
      Raise (UnableToParseFile
        ("[PLIST] Unable to parse: " +:+ file_name +:+ " with error: " +:+ msg))
  | Raise e => Raise e
  | Return top_level_object =>
      if negb (truthy top_level_object) then
        Raise (UnableToParseFile
          ("[PLIST] File is not a plist: " +:+ GetUnicodeString lib file_name))
      else Return top_level_object
  end.

(** ** The generator [Parse] *)

(** What one advancement of a generator hands back to its consumer. *)
Inductive outcome :=
| Yielded (o : objid)
| StopIteration
| Raised (e : exception).

(** A generator object of [Parse].  [GCreated]: the body has not been
    entered.  [GSuspended]: the body is suspended at the [yield] of line 154,
    inside the iteration over the records of [plist_plugin]; it holds the
    local variables that are live there.  [GFinished]: the body has returned
    or raised. *)
Inductive generator :=
| GCreated (self : PlistParser) (file_entry : file_entry)
| GSuspended (plist_name : string) (top_level_object : pyval)
    (plist_plugin : PlistPlugin) (pending : list objid)
    (ending : option exception) (remaining : list PlistPlugin)
| GFinished.

(** The result of one advancement: what the consumer receives, the generator
    afterwards, the effects performed meanwhile and the store afterwards. *)
Record step := {
  out : outcome;
  gen : generator;
  effects : list effect;
  store : heap
}.

Definition emit (es : list effect) (s : step) : step :=
  {| out := out s; gen := gen s; effects := es ++ effects s; store := store s |}.

Definition raise (e : exception) (h : heap) : step :=
  {| out := Raised e; gen := GFinished; effects := []; store := h |}.

(** The text of the note of lines 156-157. *)
Definition wrong_plugin_note (arg0 arg1 : string) : string :=
  "[PLIST] Wrong plugin: " +:+ arg0 +:+ " for: " +:+ arg1.

(** Lines 152-157 for the plugin [plist_plugin] whose iteration still has
    [pending] to hand out; [continue] is the rest of the loop of line 150. *)
Definition resume (continue : heap -> step) (plist_name : string)
    (top_level_object : pyval) (plist_plugin : PlistPlugin)
    (pending : list objid) (ending : option exception)
    (remaining : list PlistPlugin) (h : heap) : step :=
  match pending with
  | event_object :: pending' =>
      {| out := Yielded event_object;
         gen := GSuspended plist_name top_level_object plist_plugin pending'
                  ending remaining;
         effects := [ESetPlugin event_object (plugin_name plist_plugin);
                     EYield event_object];
         store := set_plugin h event_object (plugin_name plist_plugin) |}
  | [] =>
      match ending with
      | None => continue h
      | Some (WrongPlistPlugin arg0 arg1) =>
          emit [ELogDebug (wrong_plugin_note arg0 arg1)] (continue h)
      | Some e => raise e h
      end
  end.

(** Lines 150-159: the loop over [self._plugins.itervalues()] and the final
    [file_object.close()]. *)
Fixpoint dispatch (plist_name : string) (top_level_object : pyval)
    (plugins : list PlistPlugin) (h : heap) : step :=
  match plugins with
  | [] =>
      {| out := StopIteration; gen := GFinished; effects := [EClose];
         store := h |}
  | plist_plugin :: remaining =>
      let run := Process plist_plugin plist_name top_level_object in
      emit [EProcess (plugin_name plist_plugin) plist_name]
           (resume (dispatch plist_name top_level_object remaining)
                   plist_name top_level_object plist_plugin
                   (records run) (ending run) remaining h)
  end.

(** Lines 147-159. *)
Definition Parse_dispatch (self : PlistParser) (file_entry : file_entry)
    (top_level_object : pyval) (h : heap) : step :=
  let file_system := GetFileSystem file_entry in
  let plist_name := BasenamePath file_system (name file_entry) in
  emit [EGetFileSystem; EBasenamePath (name file_entry)]
       (dispatch plist_name top_level_object (itervalues (_plugins self)) h).

(** Lines 142-159. *)
Definition Parse_checked (self : PlistParser) (file_entry : file_entry)
    (top_level_object : pyval) (h : heap) : step :=
  if negb (truthy top_level_object) then
    emit [EClose]
         (raise (UnableToParseFile
                   ("[PLIST] unable to parse: " +:+ name file_entry
                    +:+ " skipping.")) h)
  else Parse_dispatch self file_entry top_level_object h.

(** Lines 135-159. *)
Definition Parse_decode (lib : imports) (self : PlistParser)
    (file_entry : file_entry) (file_object : file_object) (h : heap) : step :=
  emit [EReadPlist]
       match GetTopLevel lib file_object (name file_entry) with
       | Raise (UnableToParseFile msg) =>
           emit [EClose] (raise (UnableToParseFile msg) h)
       | Raise e => raise e h
       | Return top_level_object =>
           Parse_checked self file_entry top_level_object h
       end.

(** The body of [Parse] from its entry to the first [yield], return or
    raise (lines 120-159). *)
Definition Parse_body (lib : imports) (self : PlistParser)
    (file_entry : file_entry) (h : heap) : step :=
  let file_object := GetFileObject file_entry in
  let file_size := get_size file_object in
  emit [EGetFileObject; EGetSize]
       (if bool_decide (file_size ≤ 0) then
          emit [EClose]
               (raise (UnableToParseFile
                         ("[PLIST] file size: " +:+ pretty file_size
                          +:+ " bytes is less equal 0.")) h)
        else if bool_decide (50000000 < file_size) then
          emit [EClose]
               (raise (UnableToParseFile
                         ("[PLIST] file size: " +:+ pretty file_size
                          +:+ " bytes is larger than 50 MB.")) h)
        else Parse_decode lib self file_entry file_object h).

(** Calling [Parse] (line 110): the function contains [yield], so the call
    only builds the generator object. *)
Definition Parse (self : PlistParser) (file_entry : file_entry) : generator :=
  GCreated self file_entry.

(** [next(generator)]: run the body from where it stands. *)
Definition next (lib : imports) (g : generator) (h : heap) : step :=
  match g with
  | GCreated self file_entry => Parse_body lib self file_entry h
  | GSuspended plist_name top_level_object plist_plugin pending ending
      remaining =>
      resume (dispatch plist_name top_level_object remaining)
             plist_name top_level_object plist_plugin pending ending
             remaining h
  | GFinished =>
      {| out := StopIteration; gen := GFinished; effects := []; store := h |}
  end.

(** ** Consuming the generator *)

(** What a consumer that advances the generator until it stops has seen:
    the event objects with their attributes as they were when yielded, the
    exception that ended the iteration if one did, every effect in program
    order, and the store at the end. *)
Record run := {
  yielded : list (objid * attrs);
  failure : option exception;
  trace : list effect;
  final_store : heap
}.

Definition run_emit (es : list effect) (r : run) : run :=
  {| yielded := yielded r; failure := failure r; trace := es ++ trace r;
     final_store := final_store r |}.

Definition run_yield (o : objid) (a : attrs) (r : run) : run :=
  {| yielded := (o, a) :: yielded r; failure := failure r; trace := trace r;
     final_store := final_store r |}.

(** One turn of the consumer's loop, given the advancement [s]: keep the
    record and go on with [continue], or stop. *)
Definition finish (continue : generator -> heap -> option run) (s : step)
    : option run :=
  match out s with
  | Yielded o =>
      (fun r => run_yield o (attrs_of (store s) o) (run_emit (effects s) r))
        <$> continue (gen s) (store s)
  | StopIteration =>
      Some {| yielded := []; failure := None; trace := effects s;
              final_store := store s |}
  | Raised e =>
      Some {| yielded := []; failure := Some e; trace := effects s;
              final_store := store s |}
  end.

(** [for event_object in generator: ...] with a consumer that only keeps what
    it receives; [fuel] bounds the number of advancements. *)
Fixpoint drain (lib : imports) (fuel : nat) (g : generator) (h : heap)
    : option run :=
  match fuel with
  | O => None
  | S fuel' => finish (drain lib fuel') (next lib g h)
  end.

(** The consumer's loop terminates with [r]. *)
Definition exhausts (lib : imports) (g : generator) (h : heap) (r : run)
    : Prop :=
  ∃ fuel, drain lib fuel g h = Some r.

(** ** The consumer's loop, in one piece

    The same loop written by recursion on the plugins and on their records;
    [exhausts_Parse] below shows that [drain] computes it. *)

Definition stopped (e : option exception) (es : list effect) (h : heap) : run :=
  {| yielded := []; failure := e; trace := es; final_store := h |}.

Fixpoint consume_records (continue : heap -> run) (plist_plugin : PlistPlugin)
    (pending : list objid) (ending : option exception) (h : heap) : run :=
  match pending with
  | event_object :: pending' =>
      let h' := set_plugin h event_object (plugin_name plist_plugin) in
      run_yield event_object (attrs_of h' event_object)
        (run_emit [ESetPlugin event_object (plugin_name plist_plugin);
                   EYield event_object]
           (consume_records continue plist_plugin pending' ending h'))
  | [] =>
      match ending with
      | None => continue h
      | Some (WrongPlistPlugin arg0 arg1) =>
          run_emit [ELogDebug (wrong_plugin_note arg0 arg1)] (continue h)
      | Some e => stopped (Some e) [] h
      end
  end.

Fixpoint consume_plugins (plist_name : string) (top_level_object : pyval)
    (plugins : list PlistPlugin) (h : heap) : run :=
  match plugins with
  | [] => stopped None [EClose] h
  | plist_plugin :: remaining =>
      let run := Process plist_plugin plist_name top_level_object in
      run_emit [EProcess (plugin_name plist_plugin) plist_name]
        (consume_records (consume_plugins plist_name top_level_object remaining)
           plist_plugin (records run) (ending run) h)
  end.

(** The rest of the loop for a generator that has been advanced already. *)
Definition consume_suspended (g : generator) (h : heap) : run :=
  match g with
  | GSuspended plist_name top_level_object plist_plugin pending ending
      remaining =>
      consume_records (consume_plugins plist_name top_level_object remaining)
        plist_plugin pending ending h
  | _ => stopped None [] h
  end.

(** The whole loop, given its first advancement. *)
Definition complete (s : step) : run :=
  match out s with
  | Yielded o =>
      run_yield o (attrs_of (store s) o)
        (run_emit (effects s) (consume_suspended (gen s) (store s)))
  | StopIteration => stopped None (effects s) (store s)
  | Raised e => stopped (Some e) (effects s) (store s)
  end.

Definition Parse_run (lib : imports) (self : PlistParser)
    (file_entry : file_entry) (h : heap) : run :=
  complete (Parse_body lib self file_entry h).

(** ** Vocabulary of the properties *)

(** How often [file_object.close()] is called in a trace. *)
Definition closes (t : list effect) : nat :=
  length (filter (λ e, e = EClose) t).

(** The plugins whose [Process] is called in a trace, in call order. *)
Definition invoked (t : list effect) : list string :=
  omap (λ e, match e with EProcess p _ => Some p | _ => None end) t.

(** An iteration that ends by exhaustion or with the mismatch signal, the two
    endings the loop of line 150 survives. *)
Definition contained (e : option exception) : bool :=
  match e with
  | None => true
  | Some (WrongPlistPlugin _ _) => true
  | Some _ => false
  end.

(** The decode failures [GetTopLevel] names in its handlers. *)
Definition decode_failure (e : exception) : bool :=
  match e with
  | FormatError _ | LookupError _ | BinasciiError _ | ValueError _
  | AttributeError _ | OverflowError _ => true
  | _ => false
  end.

(** The file passes the size checks and decodes to the non-empty
    [top_level_object]. *)
Definition decodes (lib : imports) (file_entry : file_entry)
    (top_level_object : pyval) : Prop :=
  0 < get_size (GetFileObject file_entry) ≤ 50000000 ∧
  readPlist lib (GetFileObject file_entry) = Return top_level_object ∧
  truthy top_level_object = true.

(** The attribute stores and yields for the records of one plugin. *)
Definition stamps (plugin : string) (pending : list objid) : list effect :=
  flat_map (λ o, [ESetPlugin o plugin; EYield o]) pending.

(** The note logged for an ending, if it is the mismatch signal. *)
Definition mismatch_note (e : option exception) : list effect :=
  match e with
  | Some (WrongPlistPlugin arg0 arg1) =>
      [ELogDebug (wrong_plugin_note arg0 arg1)]
  | _ => []
  end.

(** Everything one plugin contributes to the trace: the call of [Process],
    the store and yield of each of its records, the note of a mismatch. *)
Definition plugin_trace (plist_name : string) (top_level_object : pyval)
    (p : PlistPlugin) : list effect :=
  let run := Process p plist_name top_level_object in
  EProcess (plugin_name p) plist_name ::
  stamps (plugin_name p) (records run) ++ mismatch_note (ending run).

(** The plugins of the registry up to and including the first one whose
    iteration is not contained. *)
Fixpoint reached (plist_name : string) (top_level_object : pyval)
    (plugins : list PlistPlugin) : list PlistPlugin :=
  match plugins with
  | [] => []
  | p :: remaining =>
      p :: if contained (ending (Process p plist_name top_level_object))
           then reached plist_name top_level_object remaining else []
  end.

(** Every iteration of the registry is contained. *)
Definition all_contained (plist_name : string) (top_level_object : pyval)
    (plugins : list PlistPlugin) : bool :=
  forallb (λ p, contained (ending (Process p plist_name top_level_object)))
    plugins.

(** The records the plugins hand out, each with the name of the plugin it
    comes from. *)
Definition produced (plist_name : string) (top_level_object : pyval)
    (plugins : list PlistPlugin) : list (objid * string) :=
  flat_map
    (λ p, map (λ o, (o, plugin_name p))
            (records (Process p plist_name top_level_object)))
    plugins.

(** The first ending of the registry that is not contained, if there is
    one. *)
Fixpoint escaping (plist_name : string) (top_level_object : pyval)
    (plugins : list PlistPlugin) : option exception :=
  match plugins with
  | [] => None
  | p :: remaining =>
      let e := ending (Process p plist_name top_level_object) in
      if contained e
      then escaping plist_name top_level_object remaining else e
  end.

(** Two stores that differ at most in [plugin] attributes. *)
Definition same_but_plugin (h h' : heap) : Prop :=
  ∀ o field, field ≠ "plugin" → attrs_of h' o !! field = attrs_of h o !! field.

(** What the consumer finds in the [plugin] attribute of each record it
    receives. *)
Definition attribution (ys : list (objid * attrs))
    : list (objid * option pyval) :=
  map (λ ya, (ya.1, ya.2 !! "plugin")) ys.

(** A run from the store [h] that touches [plugin] attributes only, and only
    those of the objects it yields. *)
Definition frame (h : heap) (r : run) : Prop :=
  same_but_plugin h (final_store r) ∧
  Forall (λ ya, ∀ field, field ≠ "plugin" →
                ya.2 !! field = attrs_of h ya.1 !! field) (yielded r) ∧
  (∀ o, (∀ a, (o, a) ∉ yielded r) → final_store r !! o = h !! o).

(** The run ends in one of the outcomes the specification lists (size
    violation, decode failure, empty result, exhaustion with or without
    mismatches): neither the deserializer nor a plugin raises an exception
    of another kind. *)
Definition listed_outcome (lib : imports) (self : PlistParser)
    (file_entry : file_entry) : bool :=
  let file_object := GetFileObject file_entry in
  if bool_decide (get_size file_object ≤ 0) then true
  else if bool_decide (50000000 < get_size file_object) then true
  else
    match readPlist lib file_object with
    | Raise e => decode_failure e
    | Return top_level_object =>
        if negb (truthy top_level_object) then true
        else all_contained
               (BasenamePath (GetFileSystem file_entry) (name file_entry))
               top_level_object (itervalues (_plugins self))
    end.

(** The effects of [Parse] before the loop over the plugins. *)
Definition prologue (file_entry : file_entry) : list effect :=
  [EGetFileObject; EGetSize; EReadPlist; EGetFileSystem;
   EBasenamePath (name file_entry)].

(** The diagnostic notes logged in a trace, in order. *)
Definition notes (t : list effect) : list string :=
  omap (λ e, match e with ELogDebug m => Some m | _ => None end) t.

(** The name of the plugin that handed out [o] last, if any did. *)
Definition last_producer (o : objid) (l : list (objid * string))
    : option string :=
  last (omap (λ op, if decide (op.1 = o) then Some op.2 else None) l).

(** ** Sample data *)

Definition sample_file_system : file_system :=
  {| BasenamePath := λ path, path |}.

Definition sample_entry (size : Z) : file_entry :=
  {| name := "com.apple.plist";
     GetFileObject := {| get_size := size; stream := [] |};
     GetFileSystem := sample_file_system |}.

Definition sample_imports (decoded : result pyval) : imports :=
  {| readPlist := λ _, decoded; GetUnicodeString := λ s, s |}.

Definition sample_document : pyval := PDict [("foo", PStr "bar")].

Definition plugin_A : PlistPlugin :=
  {| plugin_name := "A";
     Process := λ _ _, {| records := [1%nat; 2%nat]; ending := None |} |}.

Definition plugin_B : PlistPlugin :=
  {| plugin_name := "B";
     Process := λ _ _, {| records := [3%nat]; ending := None |} |}.

Definition plugin_wrong : PlistPlugin :=
  {| plugin_name := "W";
     Process := λ plist_name _,
       {| records := [];
          ending := Some (WrongPlistPlugin "W" plist_name) |} |}.

Definition plugin_broken : PlistPlugin :=
  {| plugin_name := "X";
     Process := λ _ _,
       {| records := [4%nat]; ending := Some (ValueError "bad key") |} |}.

Definition plugin_shared : PlistPlugin :=
  {| plugin_name := "S";
     Process := λ _ _, {| records := [1%nat]; ending := None |} |}.

Definition sample_parser (plugins : list PlistPlugin) : PlistParser :=
  {| _plugins := map (λ p, (plugin_name p, p)) plugins |}.

(** * Properties *)

(** ** Sample runs *)

Example run_two_plugins :
  (λ r, (attribution (yielded r), failure r, trace r))
    <$> drain (sample_imports (Return sample_document)) 4
          (Parse (sample_parser [plugin_A; plugin_wrong; plugin_B])
             (sample_entry 42)) ∅
  = Some ([(1%nat, Some (PStr "A")); (2%nat, Some (PStr "A"));
           (3%nat, Some (PStr "B"))],
          None,
          [EGetFileObject; EGetSize; EReadPlist; EGetFileSystem;
           EBasenamePath "com.apple.plist";
           EProcess "A" "com.apple.plist";
           ESetPlugin 1%nat "A"; EYield 1%nat;
           ESetPlugin 2%nat "A"; EYield 2%nat;
           EProcess "W" "com.apple.plist";
           ELogDebug "[PLIST] Wrong plugin: W for: com.apple.plist";
           EProcess "B" "com.apple.plist";
           ESetPlugin 3%nat "B"; EYield 3%nat;
           EClose]).
Proof. vm_compute. reflexivity. Qed.

Example run_out_of_fuel :
  drain (sample_imports (Return sample_document)) 3
    (Parse (sample_parser [plugin_A; plugin_wrong; plugin_B])
       (sample_entry 42)) ∅
  = None.
Proof. vm_compute. reflexivity. Qed.

Example run_broken_plugin :
  (λ r, (attribution (yielded r), failure r, trace r))
    <$> drain (sample_imports (Return sample_document)) 4
          (Parse (sample_parser [plugin_broken; plugin_B]) (sample_entry 42))
          ∅
  = Some ([(4%nat, Some (PStr "X"))],
          Some (ValueError "bad key"),
          [EGetFileObject; EGetSize; EReadPlist; EGetFileSystem;
           EBasenamePath "com.apple.plist";
           EProcess "X" "com.apple.plist";
           ESetPlugin 4%nat "X"; EYield 4%nat]).
Proof. vm_compute. reflexivity. Qed.

Example run_empty_file :
  (λ r, (failure r, trace r))
    <$> drain (sample_imports (Return sample_document)) 1
          (Parse (sample_parser [plugin_A]) (sample_entry 0)) ∅
  = Some (Some (UnableToParseFile
                  "[PLIST] file size: 0 bytes is less equal 0."),
          [EGetFileObject; EGetSize; EClose]).
Proof. vm_compute. reflexivity. Qed.

Example registry_filtered :
  __init__ [plugin_A; plugin_B; plugin_wrong] {| parsers := Some {["B"]} |}
  = inr (sample_parser [plugin_B]).
Proof. vm_compute. reflexivity. Qed.

Example registry_conflict :
  __init__ [plugin_A; plugin_B; plugin_A] {| parsers := None |}
  = inl (HandleRegistrationConflict "A").
Proof. vm_compute. reflexivity. Qed.

(** ** The loop computed by [drain] *)

Lemma emit_emit es1 es2 s : emit es1 (emit es2 s) = emit (es1 ++ es2) s.
Proof. unfold emit; simpl. by rewrite app_assoc. Qed.

Lemma finish_emit continue es s :
  finish continue (emit es s) = run_emit es <$> finish continue s.
Proof.
  unfold finish, emit; simpl. destruct (out s); simpl; try done.
  destruct (continue (gen s) (store s)) as [r|]; simpl; [|done].
  f_equal. unfold run_yield, run_emit; simpl. by rewrite app_assoc.
Qed.

Lemma complete_emit es s : complete (emit es s) = run_emit es (complete s).
Proof.
  unfold complete, emit; simpl. destruct (out s); try done.
  unfold run_yield, run_emit; simpl. by rewrite app_assoc.
Qed.

Lemma complete_dispatch plist_name top plugins h :
  complete (dispatch plist_name top plugins h)
  = consume_plugins plist_name top plugins h.
Proof.
  revert h. induction plugins as [|p rest IH]; intros h; [done|].
  cbn [dispatch consume_plugins]. rewrite complete_emit. f_equal.
  destruct (records (Process p plist_name top)) as [|o pend]; [|done].
  cbn [resume consume_records].
  destruct (ending (Process p plist_name top)) as [[]|];
    rewrite ?complete_emit, ?IH; done.
Qed.

(** More fuel does not change what [drain] returns. *)
Lemma drain_S lib fuel g h r :
  drain lib fuel g h = Some r → drain lib (S fuel) g h = Some r.
Proof.
  revert g h r. induction fuel as [|fuel IH]; intros g h r; [done|].
  intros Hd. change (finish (drain lib (S fuel)) (next lib g h) = Some r).
  cbn [drain] in Hd. unfold finish in *.
  destruct (out (next lib g h)); try done.
  destruct (drain lib fuel _ _) as [r'|] eqn:E; [|done].
  by rewrite (IH _ _ _ E).
Qed.

Lemma drain_le lib fuel fuel' g h r :
  (fuel ≤ fuel')%nat → drain lib fuel g h = Some r →
  drain lib fuel' g h = Some r.
Proof. induction 1; [done|]. intros. by apply drain_S, IHle. Qed.

(** The loop has one result. *)
Lemma exhausts_unique lib g h r1 r2 :
  exhausts lib g h r1 → exhausts lib g h r2 → r1 = r2.
Proof.
  intros [f1 H1] [f2 H2].
  apply (drain_le _ _ (f1 `max` f2)%nat) in H1; [|lia].
  apply (drain_le _ _ (f1 `max` f2)%nat) in H2; [|lia].
  congruence.
Qed.

Lemma finish_resume lib plist_name top p ending rest :
  (∀ h, ∃ fuel, finish (drain lib fuel) (dispatch plist_name top rest h)
                = Some (consume_plugins plist_name top rest h)) →
  ∀ pending h, ∃ fuel,
    finish (drain lib fuel)
      (resume (dispatch plist_name top rest) plist_name top p pending ending
         rest h)
    = Some (consume_records (consume_plugins plist_name top rest) p pending
              ending h).
Proof.
  intros Hrest pending.
  induction pending as [|o pending IH]; intros h.
  - cbn [resume consume_records]. destruct ending as [e|]; [|apply Hrest].
    destruct e; try (by exists O).
    destruct (Hrest h) as [fuel Hf]. exists fuel.
    by rewrite finish_emit, Hf.
  - destruct (IH (set_plugin h o (plugin_name p))) as [fuel Hf].
    exists (S fuel). cbn [resume consume_records].
    unfold finish at 1. cbn [out gen store effects drain next].
    by rewrite Hf.
Qed.

Lemma finish_dispatch lib plist_name top plugins h :
  ∃ fuel, finish (drain lib fuel) (dispatch plist_name top plugins h)
          = Some (consume_plugins plist_name top plugins h).
Proof.
  revert h. induction plugins as [|p rest IH]; intros h; [by exists O|].
  destruct (finish_resume lib plist_name top p
              (ending (Process p plist_name top)) rest IH
              (records (Process p plist_name top)) h) as [fuel Hf].
  exists fuel. cbn [dispatch consume_plugins]. by rewrite finish_emit, Hf.
Qed.

(** The consumer's loop over [Parse(file_entry)] terminates, with the run
    [Parse_run] describes. *)
Lemma exhausts_Parse lib self file_entry h :
  exhausts lib (Parse self file_entry) h (Parse_run lib self file_entry h).
Proof.
  unfold exhausts, Parse, Parse_run.
  assert (∃ fuel, finish (drain lib fuel) (Parse_body lib self file_entry h)
                  = Some (complete (Parse_body lib self file_entry h)))
    as [fuel Hf]; [|by exists (S fuel)].
  unfold Parse_body, Parse_decode, Parse_checked, Parse_dispatch.
  repeat case_bool_decide; try (by exists O).
  destruct (GetTopLevel _ _ _) as [top|e].
  - destruct (negb (truthy top)); [by exists O|].
    destruct (finish_dispatch lib
      (BasenamePath (GetFileSystem file_entry) (name file_entry)) top
      (itervalues (_plugins self)) h) as [fuel Hf].
    exists fuel. rewrite !finish_emit, Hf, !complete_emit, complete_dispatch.
    done.
  - exists O. destruct e; done.
Qed.

(** ** The loop over the plugins *)

Section Dispatch.
Context (plist_name : string) (top : pyval).

Local Abbreviation run_of p := (Process p plist_name top).
Local Abbreviation loop := (consume_plugins plist_name top).

Lemma trace_consume_records (continue : heap → run) t p pending e h :
  (∀ h', trace (continue h') = t) →
  trace (consume_records continue p pending e h)
  = stamps (plugin_name p) pending ++ mismatch_note e
    ++ (if contained e then t else []).
Proof.
  intros Ht. revert h. induction pending as [|o pending IH]; intros h.
  - cbn [consume_records stamps flat_map app].
    destruct e as [[]|]; simpl; by rewrite ?Ht.
  - cbn [consume_records]. simpl. by rewrite IH.
Qed.

Lemma failure_consume_records (continue : heap → run) f p pending e h :
  (∀ h', failure (continue h') = f) →
  failure (consume_records continue p pending e h)
  = if contained e then f else e.
Proof.
  intros Hf. revert h. induction pending as [|o pending IH]; intros h.
  - cbn [consume_records]. destruct e as [[]|]; simpl; by rewrite ?Hf.
  - cbn [consume_records]. simpl. by rewrite IH.
Qed.

(** The trace of the loop: the contributions of the reached plugins in
    registry order, then the close when no iteration escaped. *)
Lemma trace_consume_plugins plugins h :
  trace (loop plugins h)
  = flat_map (plugin_trace plist_name top) (reached plist_name top plugins)
    ++ (if all_contained plist_name top plugins then [EClose] else []).
Proof.
  revert h. induction plugins as [|p rest IH]; intros h; [done|].
  cbn [consume_plugins reached all_contained forallb flat_map].
  unfold run_emit; cbn [trace].
  rewrite (trace_consume_records _ _ _ _ _ _ (λ h', IH h')).
  unfold plugin_trace at 1. simpl.
  destruct (contained (ending (run_of p))); simpl.
  - by rewrite <- !app_assoc.
  - by rewrite !app_nil_r.
Qed.

(** The loop fails exactly with the first ending that is not contained. *)
Lemma failure_consume_plugins plugins h :
  failure (loop plugins h) = escaping plist_name top plugins.
Proof.
  revert h. induction plugins as [|p rest IH]; intros h; [done|].
  cbn [consume_plugins escaping]. unfold run_emit; cbn [failure].
  by rewrite (failure_consume_records _ _ _ _ _ _ (λ h', IH h')).
Qed.

Lemma attribution_consume_records (continue : heap → run) ys p pending e h :
  (∀ h', attribution (yielded (continue h')) = ys) →
  attribution (yielded (consume_records continue p pending e h))
  = map (λ o, (o, Some (PStr (plugin_name p)))) pending
    ++ (if contained e then ys else []).
Proof.
  intros Hys. revert h. induction pending as [|o pending IH]; intros h.
  - cbn [consume_records map app].
    destruct e as [[]|]; simpl; by rewrite ?Hys.
  - cbn [consume_records]. unfold attribution in *. simpl. rewrite IH.
    f_equal. f_equal. unfold attrs_of, set_plugin.
    by rewrite lookup_insert_eq; simpl; rewrite lookup_insert_eq.
Qed.

(** Each record reaches the consumer with the name of the plugin that
    handed it out in its [plugin] attribute. *)
Lemma attribution_consume_plugins plugins h :
  attribution (yielded (loop plugins h))
  = map (λ op, (op.1, Some (PStr op.2)))
      (produced plist_name top (reached plist_name top plugins)).
Proof.
  revert h. induction plugins as [|p rest IH]; intros h; [done|].
  cbn [consume_plugins reached]. unfold run_emit; cbn [yielded].
  rewrite (attribution_consume_records _ _ _ _ _ _ (λ h', IH h')).
  unfold produced; cbn [flat_map]. rewrite map_app, map_map. simpl.
  by destruct (contained (ending (run_of p))).
Qed.
End Dispatch.

(** ** The store *)

Lemma attrs_of_set_plugin_ne h o o' plugin :
  o ≠ o' → attrs_of (set_plugin h o plugin) o' = attrs_of h o'.
Proof. intros Hne. unfold attrs_of, set_plugin. by rewrite lookup_insert_ne. Qed.

Lemma attrs_of_set_plugin_field h o o' plugin field :
  field ≠ "plugin" →
  attrs_of (set_plugin h o plugin) o' !! field = attrs_of h o' !! field.
Proof.
  intros Hf. destruct (decide (o = o')) as [<-|Hne].
  - unfold attrs_of at 1, set_plugin. rewrite lookup_insert_eq. simpl.
    by rewrite lookup_insert_ne.
  - by rewrite attrs_of_set_plugin_ne.
Qed.

Lemma frame_stopped e es h : frame h (stopped e es h).
Proof. split; [done|]. split; [constructor|done]. Qed.

Lemma frame_run_emit es h r : frame h r → frame h (run_emit es r).
Proof. done. Qed.

Lemma frame_run_yield es h o plugin r :
  frame (set_plugin h o plugin) r →
  frame h (run_yield o (attrs_of (set_plugin h o plugin) o) (run_emit es r)).
Proof.
  intros (Hsame & Hys & Hrest). split; [|split].
  - intros o' field Hf. cbn [run_yield run_emit final_store].
    by rewrite Hsame, attrs_of_set_plugin_field.
  - cbn [run_yield run_emit yielded]. constructor.
    + intros field Hf. simpl. by apply attrs_of_set_plugin_field.
    + eapply Forall_impl; [exact Hys|]. intros [o' a] Ha field Hf. simpl in *.
      by rewrite Ha, attrs_of_set_plugin_field.
  - intros o' Ho'. cbn [run_yield run_emit final_store yielded] in *.
    rewrite Hrest.
    + unfold set_plugin. rewrite lookup_insert_ne; [done|].
      intros <-. eapply Ho'. left.
    + intros a Ha. eapply Ho'. right. exact Ha.
Qed.

Lemma frame_consume_records (continue : heap → run) p pending e h :
  (∀ h', frame h' (continue h')) →
  frame h (consume_records continue p pending e h).
Proof.
  intros Hk. revert h. induction pending as [|o pending IH]; intros h.
  - cbn [consume_records]. destruct e as [[]|]; try apply frame_stopped;
      try apply frame_run_emit; apply Hk.
  - cbn [consume_records]. apply frame_run_yield, IH.
Qed.

(** The loop changes [plugin] attributes only, and only of the objects it
    yields. *)
Lemma frame_consume_plugins plist_name top plugins h :
  frame h (consume_plugins plist_name top plugins h).
Proof.
  revert h. induction plugins as [|p rest IH]; intros h.
  - apply frame_stopped.
  - cbn [consume_plugins]. apply frame_run_emit, frame_consume_records, IH.
Qed.

(** ** The paths of [Parse] *)

Lemma closes_app t1 t2 : closes (t1 ++ t2) = (closes t1 + closes t2)%nat.
Proof. unfold closes. by rewrite filter_app, length_app. Qed.

Lemma closes_stamps plugin pending : closes (stamps plugin pending) = 0%nat.
Proof. induction pending as [|o pending IH]; [done|]. exact IH. Qed.

Lemma closes_plugin_trace plist_name top p :
  closes (plugin_trace plist_name top p) = 0%nat.
Proof.
  unfold plugin_trace. change (?e :: ?t) with ([e] ++ t).
  rewrite !closes_app, closes_stamps.
  by destruct (ending (Process p plist_name top)) as [[]|].
Qed.

Lemma closes_flat_map_plugin_trace plist_name top plugins :
  closes (flat_map (plugin_trace plist_name top) plugins) = 0%nat.
Proof.
  induction plugins as [|p rest IH]; [done|].
  cbn [flat_map]. by rewrite closes_app, closes_plugin_trace, IH.
Qed.

Lemma GetTopLevel_decodes lib file_entry top :
  decodes lib file_entry top →
  GetTopLevel lib (GetFileObject file_entry) (name file_entry) = Return top.
Proof. intros (_ & Hread & Htruthy). unfold GetTopLevel. by rewrite Hread, Htruthy. Qed.

(** A returned document is the deserializer's, whole, and is not empty. *)
Lemma GetTopLevel_Return lib file_object file_name top :
  GetTopLevel lib file_object file_name = Return top →
  readPlist lib file_object = Return top ∧ truthy top = true.
Proof.
  unfold GetTopLevel. destruct (readPlist lib file_object) as [top'|e].
  - destruct (truthy top') eqn:E; simpl; [|done]. by intros [= <-].
  - by destruct e.
Qed.

Lemma Parse_run_size_le_0 lib self file_entry h :
  get_size (GetFileObject file_entry) ≤ 0 →
  Parse_run lib self file_entry h
  = stopped
      (Some (UnableToParseFile
               ("[PLIST] file size: "
                +:+ pretty (get_size (GetFileObject file_entry))
                +:+ " bytes is less equal 0.")))
      [EGetFileObject; EGetSize; EClose] h.
Proof.
  intros Hsize. unfold Parse_run, Parse_body. by rewrite bool_decide_true.
Qed.

Lemma Parse_run_size_large lib self file_entry h :
  50000000 < get_size (GetFileObject file_entry) →
  Parse_run lib self file_entry h
  = stopped
      (Some (UnableToParseFile
               ("[PLIST] file size: "
                +:+ pretty (get_size (GetFileObject file_entry))
                +:+ " bytes is larger than 50 MB.")))
      [EGetFileObject; EGetSize; EClose] h.
Proof.
  intros Hsize. unfold Parse_run, Parse_body.
  rewrite bool_decide_false by lia. by rewrite bool_decide_true.
Qed.

Lemma Parse_body_size_ok lib self file_entry h :
  0 < get_size (GetFileObject file_entry) ≤ 50000000 →
  Parse_body lib self file_entry h
  = emit [EGetFileObject; EGetSize]
      (Parse_decode lib self file_entry (GetFileObject file_entry) h).
Proof.
  intros Hsize. unfold Parse_body. by rewrite !bool_decide_false by lia.
Qed.

Lemma Parse_run_unable lib self file_entry h msg :
  0 < get_size (GetFileObject file_entry) ≤ 50000000 →
  GetTopLevel lib (GetFileObject file_entry) (name file_entry)
  = Raise (UnableToParseFile msg) →
  Parse_run lib self file_entry h
  = stopped (Some (UnableToParseFile msg))
      [EGetFileObject; EGetSize; EReadPlist; EClose] h.
Proof.
  intros Hsize Htop. unfold Parse_run.
  rewrite Parse_body_size_ok by done. unfold Parse_decode. by rewrite Htop.
Qed.

Lemma Parse_run_decodes lib self file_entry top h :
  decodes lib file_entry top →
  Parse_run lib self file_entry h
  = run_emit (prologue file_entry)
      (consume_plugins
         (BasenamePath (GetFileSystem file_entry) (name file_entry)) top
         (itervalues (_plugins self)) h).
Proof.
  intros Hdec. pose proof (GetTopLevel_decodes _ _ _ Hdec) as Htop.
  destruct Hdec as (Hsize & _ & Htruthy). unfold Parse_run.
  rewrite Parse_body_size_ok by done. unfold Parse_decode, Parse_checked.
  rewrite Htop, Htruthy. unfold Parse_dispatch. cbn [negb].
  by rewrite !emit_emit, complete_emit, complete_dispatch.
Qed.

Lemma GetTopLevel_decode_failure lib file_object file_name e :
  readPlist lib file_object = Raise e →
  decode_failure e = true →
  ∃ detail, GetTopLevel lib file_object file_name
            = Raise (UnableToParseFile ("[PLIST] " +:+ detail)).
Proof.
  intros Hread Hkind. unfold GetTopLevel. rewrite Hread.
  destruct e; try discriminate Hkind; eexists; reflexivity.
Qed.

(** Either the file decodes and [Parse] reaches its loop, or the run stops
    before any plugin is called. *)
Lemma Parse_run_cases lib self file_entry h :
  (∃ top, decodes lib file_entry top) ∨
  (invoked (trace (Parse_run lib self file_entry h)) = [] ∧
   yielded (Parse_run lib self file_entry h) = [] ∧
   final_store (Parse_run lib self file_entry h) = h).
Proof.
  destruct (decide (get_size (GetFileObject file_entry) ≤ 0)) as [Hle|Hle].
  { right. by rewrite Parse_run_size_le_0. }
  destruct (decide (50000000 < get_size (GetFileObject file_entry)))
    as [Hgt|Hgt].
  { right. by rewrite Parse_run_size_large. }
  destruct (GetTopLevel lib (GetFileObject file_entry) (name file_entry))
    as [top|e] eqn:Htop.
  - left. exists top. apply GetTopLevel_Return in Htop as [? ?].
    repeat split; (lia || done).
  - right. unfold Parse_run. rewrite Parse_body_size_ok by lia.
    unfold Parse_decode. rewrite Htop. by destruct e.
Qed.

Lemma invoked_app t1 t2 : invoked (t1 ++ t2) = invoked t1 ++ invoked t2.
Proof. apply omap_app. Qed.

Lemma invoked_stamps plugin pending : invoked (stamps plugin pending) = [].
Proof. induction pending as [|o pending IH]; [done|]. exact IH. Qed.

Lemma invoked_plugin_trace plist_name top p :
  invoked (plugin_trace plist_name top p) = [plugin_name p].
Proof.
  unfold plugin_trace. change (?e :: ?t) with ([e] ++ t).
  rewrite !invoked_app, invoked_stamps.
  by destruct (ending (Process p plist_name top)) as [[]|].
Qed.

Lemma invoked_flat_map_plugin_trace plist_name top plugins :
  invoked (flat_map (plugin_trace plist_name top) plugins)
  = map plugin_name plugins.
Proof.
  induction plugins as [|p rest IH]; [done|].
  cbn [flat_map map]. by rewrite invoked_app, invoked_plugin_trace, IH.
Qed.

Lemma reached_all_contained plist_name top plugins :
  all_contained plist_name top plugins = true →
  reached plist_name top plugins = plugins.
Proof.
  induction plugins as [|p rest IH]; [done|].
  cbn [all_contained forallb reached]. intros [Hp Hrest]%andb_prop.
  rewrite Hp. f_equal. by apply IH.
Qed.

Lemma reached_app plist_name top before after :
  all_contained plist_name top before = true →
  reached plist_name top (before ++ after)
  = before ++ reached plist_name top after.
Proof.
  induction before as [|p rest IH]; [done|].
  cbn [all_contained forallb reached app]. intros [Hp Hrest]%andb_prop.
  rewrite Hp. f_equal. by apply IH.
Qed.

Lemma all_contained_app plist_name top before after :
  all_contained plist_name top (before ++ after)
  = all_contained plist_name top before && all_contained plist_name top after.
Proof. apply forallb_app. Qed.

Lemma reached_prefix plist_name top plugins :
  reached plist_name top plugins `prefix_of` plugins.
Proof.
  induction plugins as [|p rest IH]; [done|]. cbn [reached].
  destruct (contained _).
  - by apply prefix_cons.
  - by exists rest.
Qed.

Lemma escaping_all_contained plist_name top plugins :
  all_contained plist_name top plugins = true →
  escaping plist_name top plugins = None.
Proof.
  induction plugins as [|p rest IH]; [done|].
  cbn [all_contained forallb escaping]. intros [Hp Hrest]%andb_prop.
  rewrite Hp. by apply IH.
Qed.

Lemma escaping_not_contained plist_name top plugins :
  all_contained plist_name top plugins = false →
  ∃ e, escaping plist_name top plugins = Some e ∧ contained (Some e) = false.
Proof.
  induction plugins as [|p rest IH]; [done|].
  cbn [all_contained forallb escaping].
  destruct (contained (ending (Process p plist_name top))) eqn:Hp.
  - exact IH.
  - intros _. destruct (ending (Process p plist_name top)) as [e|]; [|done].
    by exists e.
Qed.

Lemma invoked_Parse_run lib self file_entry top h :
  decodes lib file_entry top →
  invoked (trace (Parse_run lib self file_entry h))
  = map plugin_name
      (reached (BasenamePath (GetFileSystem file_entry) (name file_entry))
         top (itervalues (_plugins self))).
Proof.
  intros Hdec. rewrite (Parse_run_decodes _ _ _ _ _ Hdec).
  cbn [run_emit trace]. rewrite trace_consume_plugins, !invoked_app.
  rewrite invoked_flat_map_plugin_trace. cbn [prologue invoked omap].
  destruct (all_contained _ _ _); simpl; by rewrite app_nil_r.
Qed.

(** ** Size validation *)

(** C3. When the file object reports a size of at most 0 or of more than
    50,000,000 bytes, the consumer's loop over [Parse(file_entry)] ends at
    once with [UnableToParseFile] and its size message; the file object is
    closed once, the deserializer is not called and nothing is yielded: the
    whole run is the size query and the close. *)
Theorem size_violation lib self file_entry h :
  get_size (GetFileObject file_entry) ≤ 0 ∨
  50000000 < get_size (GetFileObject file_entry) →
  ∃ r, exhausts lib (Parse self file_entry) h r ∧
       failure r
       = Some (UnableToParseFile
                 ("[PLIST] file size: "
                  +:+ pretty (get_size (GetFileObject file_entry)) +:+
                  (if bool_decide (get_size (GetFileObject file_entry) ≤ 0)
                   then " bytes is less equal 0."
                   else " bytes is larger than 50 MB."))) ∧
       trace r = [EGetFileObject; EGetSize; EClose] ∧
       closes (trace r) = 1%nat ∧
       (EReadPlist ∉ trace r) ∧
       yielded r = [].
Proof.
  intros Hsize. exists (Parse_run lib self file_entry h).
  split; [apply exhausts_Parse|].
  assert (EReadPlist ∉ [EGetFileObject; EGetSize; EClose]) as Hnot.
  { rewrite !not_elem_of_cons. repeat split; try done. apply not_elem_of_nil. }
  destruct Hsize as [Hle|Hgt].
  - rewrite Parse_run_size_le_0 by done. by rewrite bool_decide_true.
  - rewrite Parse_run_size_large by done. by rewrite bool_decide_false by lia.
Qed.

Lemma size_violation_witness :
  ∃ r, exhausts (sample_imports (Return sample_document))
         (Parse (sample_parser [plugin_A]) (sample_entry 50000001)) ∅ r ∧
       failure r
       = Some (UnableToParseFile
                 "[PLIST] file size: 50000001 bytes is larger than 50 MB.") ∧
       trace r = [EGetFileObject; EGetSize; EClose] ∧
       closes (trace r) = 1%nat ∧
       (EReadPlist ∉ trace r) ∧
       yielded r = [].
Proof.
  apply (size_violation (sample_imports (Return sample_document))
           (sample_parser [plugin_A]) (sample_entry 50000001) ∅).
  right. simpl. lia.
Defined.

(** ** Decode failures *)

(** C4. Each decode failure of the deserializer leaves [GetTopLevel] as one
    [UnableToParseFile] whose message names the kind of failure and carries
    the deserializer's text: "File is not a plist file" for
    [binplist.FormatError], "Unable to parse XML file, reason" for
    [LookupError], [binascii.Error], [ValueError] and [AttributeError],
    "Unable to parse ... with error" (with the file name) for
    [OverflowError].  [Parse] then closes the file object once and raises
    that same exception, without calling a plugin or yielding a record.  And
    a document [GetTopLevel] returns is the one the deserializer returned,
    whole. *)
Theorem decode_failure_remapped lib self file_entry h e :
  0 < get_size (GetFileObject file_entry) ≤ 50000000 →
  readPlist lib (GetFileObject file_entry) = Raise e →
  decode_failure e = true →
  GetTopLevel lib (GetFileObject file_entry) (name file_entry)
  = Raise (UnableToParseFile
             match e with
             | FormatError msg =>
                 "[PLIST] File is not a plist file: "
                 +:+ GetUnicodeString lib msg
             | LookupError msg | BinasciiError msg | ValueError msg
             | AttributeError msg =>
                 "[PLIST] Unable to parse XML file, reason: " +:+ msg
             | OverflowError msg =>
                 "[PLIST] Unable to parse: " +:+ name file_entry
                 +:+ " with error: " +:+ msg
             | _ => ""
             end) ∧
  (∃ r, exhausts lib (Parse self file_entry) h r ∧
        failure r
        = Some (UnableToParseFile
                  match e with
                  | FormatError msg =>
                      "[PLIST] File is not a plist file: "
                      +:+ GetUnicodeString lib msg
                  | LookupError msg | BinasciiError msg | ValueError msg
                  | AttributeError msg =>
                      "[PLIST] Unable to parse XML file, reason: " +:+ msg
                  | OverflowError msg =>
                      "[PLIST] Unable to parse: " +:+ name file_entry
                      +:+ " with error: " +:+ msg
                  | _ => ""
                  end) ∧
        trace r = [EGetFileObject; EGetSize; EReadPlist; EClose] ∧
        closes (trace r) = 1%nat ∧
        invoked (trace r) = [] ∧
        yielded r = []) ∧
  (∀ file_object file_name top,
      GetTopLevel lib file_object file_name = Return top →
      readPlist lib file_object = Return top).
Proof.
  intros Hsize Hread Hkind.
  assert (GetTopLevel lib (GetFileObject file_entry) (name file_entry)
          = Raise (UnableToParseFile
                     match e with
                     | FormatError msg =>
                         "[PLIST] File is not a plist file: "
                         +:+ GetUnicodeString lib msg
                     | LookupError msg | BinasciiError msg | ValueError msg
                     | AttributeError msg =>
                         "[PLIST] Unable to parse XML file, reason: " +:+ msg
                     | OverflowError msg =>
                         "[PLIST] Unable to parse: " +:+ name file_entry
                         +:+ " with error: " +:+ msg
                     | _ => ""
                     end)) as Htop.
  { unfold GetTopLevel. rewrite Hread.
    destruct e; try discriminate Hkind; reflexivity. }
  split; [exact Htop|]. split.
  - exists (Parse_run lib self file_entry h).
    split; [apply exhausts_Parse|].
    by rewrite (Parse_run_unable _ _ _ _ _ Hsize Htop).
  - intros file_object file_name top Hret.
    by apply GetTopLevel_Return in Hret as [? _].
Qed.

Lemma decode_failure_remapped_witness :
  GetTopLevel (sample_imports (Raise (OverflowError "too large")))
    (GetFileObject (sample_entry 42)) (name (sample_entry 42))
  = Raise (UnableToParseFile
             "[PLIST] Unable to parse: com.apple.plist with error: too large")
  ∧
  (∃ r, exhausts (sample_imports (Raise (OverflowError "too large")))
          (Parse (sample_parser [plugin_A]) (sample_entry 42)) ∅ r ∧
        failure r
        = Some (UnableToParseFile
                  "[PLIST] Unable to parse: com.apple.plist with error: too large")
        ∧
        trace r = [EGetFileObject; EGetSize; EReadPlist; EClose] ∧
        closes (trace r) = 1%nat ∧
        invoked (trace r) = [] ∧
        yielded r = []) ∧
  (∀ file_object file_name top,
      GetTopLevel (sample_imports (Raise (OverflowError "too large")))
        file_object file_name = Return top →
      readPlist (sample_imports (Raise (OverflowError "too large")))
        file_object = Return top).
Proof.
  apply (decode_failure_remapped
           (sample_imports (Raise (OverflowError "too large")))
           (sample_parser [plugin_A]) (sample_entry 42) ∅
           (OverflowError "too large")).
  - simpl. lia.
  - reflexivity.
  - reflexivity.
Defined.

(** ** Empty documents *)

(** C5. When the file decodes to an empty (false) top-level object, [Parse]
    raises [UnableToParseFile] (the "not a plist" failure of [GetTopLevel]),
    closes the file object once, calls no plugin and yields nothing. *)
Theorem empty_document lib self file_entry h top :
  0 < get_size (GetFileObject file_entry) ≤ 50000000 →
  readPlist lib (GetFileObject file_entry) = Return top →
  truthy top = false →
  ∃ r, exhausts lib (Parse self file_entry) h r ∧
       failure r
       = Some (UnableToParseFile
                 ("[PLIST] File is not a plist: "
                  +:+ GetUnicodeString lib (name file_entry))) ∧
       closes (trace r) = 1%nat ∧
       invoked (trace r) = [] ∧
       yielded r = [].
Proof.
  intros Hsize Hread Hempty. exists (Parse_run lib self file_entry h).
  split; [apply exhausts_Parse|].
  rewrite (Parse_run_unable _ _ _ _
             ("[PLIST] File is not a plist: "
              +:+ GetUnicodeString lib (name file_entry)) Hsize); [done|].
  unfold GetTopLevel. by rewrite Hread, Hempty.
Qed.

Lemma empty_document_witness :
  ∃ r, exhausts (sample_imports (Return (PDict [])))
         (Parse (sample_parser [plugin_A; plugin_B]) (sample_entry 42)) ∅ r ∧
       failure r
       = Some (UnableToParseFile
                 "[PLIST] File is not a plist: com.apple.plist") ∧
       closes (trace r) = 1%nat ∧
       invoked (trace r) = [] ∧
       yielded r = [].
Proof.
  apply (empty_document (sample_imports (Return (PDict [])))
           (sample_parser [plugin_A; plugin_B]) (sample_entry 42) ∅
           (PDict [])).
  - simpl. lia.
  - reflexivity.
  - reflexivity.
Defined.

(** C9. A document [GetTopLevel] returns is not empty, so the emptiness check
    of [Parse] (lines 142-145) never fires: after a successful [GetTopLevel]
    the checked part of [Parse] is its dispatch part, and the first
    advancement goes on to the loop over the plugins. *)
Theorem second_check_unreachable lib self file_entry h top :
  0 < get_size (GetFileObject file_entry) ≤ 50000000 →
  GetTopLevel lib (GetFileObject file_entry) (name file_entry) = Return top →
  truthy top = true ∧
  Parse_checked self file_entry top h = Parse_dispatch self file_entry top h ∧
  next lib (Parse self file_entry) h
  = emit (prologue file_entry)
      (dispatch (BasenamePath (GetFileSystem file_entry) (name file_entry))
         top (itervalues (_plugins self)) h).
Proof.
  intros Hsize Htop.
  destruct (GetTopLevel_Return _ _ _ _ Htop) as [_ Htruthy].
  split; [exact Htruthy|]. split.
  - unfold Parse_checked. by rewrite Htruthy.
  - cbn [next Parse]. rewrite Parse_body_size_ok by done.
    unfold Parse_decode, Parse_checked. rewrite Htop, Htruthy.
    unfold Parse_dispatch. cbn [negb]. by rewrite !emit_emit.
Qed.

Lemma second_check_unreachable_witness :
  truthy sample_document = true ∧
  Parse_checked (sample_parser [plugin_A]) (sample_entry 42) sample_document ∅
  = Parse_dispatch (sample_parser [plugin_A]) (sample_entry 42)
      sample_document ∅ ∧
  next (sample_imports (Return sample_document))
    (Parse (sample_parser [plugin_A]) (sample_entry 42)) ∅
  = emit (prologue (sample_entry 42))
      (dispatch
         (BasenamePath (GetFileSystem (sample_entry 42))
            (name (sample_entry 42)))
         sample_document (itervalues (_plugins (sample_parser [plugin_A])))
         ∅).
Proof.
  apply (second_check_unreachable (sample_imports (Return sample_document))
           (sample_parser [plugin_A]) (sample_entry 42) ∅ sample_document).
  - simpl. lia.
  - reflexivity.
Defined.

(** ** Laziness *)

(** C10. Calling [Parse] runs nothing of its body: the call is the unstarted
    generator.  The size query is the start of the first advancement, and
    that advancement either finds the file within the size bounds and decoded
    to a non-empty document and enters the loop over the plugins, or raises:
    every failure of the size checks, of the decoding and of the emptiness
    check surfaces there, with the close (if any) among its effects. *)
Theorem parse_is_lazy lib self file_entry h :
  Parse self file_entry = GCreated self file_entry ∧
  (∃ rest, effects (next lib (Parse self file_entry) h)
           = EGetFileObject :: EGetSize :: rest) ∧
  ((∃ top, decodes lib file_entry top ∧
           next lib (Parse self file_entry) h
           = emit (prologue file_entry)
               (dispatch
                  (BasenamePath (GetFileSystem file_entry) (name file_entry))
                  top (itervalues (_plugins self)) h)) ∨
   (∃ e, (∀ top, ¬ decodes lib file_entry top) ∧
         out (next lib (Parse self file_entry) h) = Raised e ∧
         gen (next lib (Parse self file_entry) h) = GFinished ∧
         closes (effects (next lib (Parse self file_entry) h))
         = (match e with UnableToParseFile _ => 1 | _ => 0 end)%nat)).
Proof.
  split; [done|]. split.
  { cbn [next Parse]. unfold Parse_body. eexists. reflexivity. }
  cbn [next Parse]. unfold Parse_body.
  case_bool_decide as Hle.
  { right. eexists. split; [|done]. intros top ([? ?] & _). lia. }
  case_bool_decide as Hgt.
  { right. eexists. split; [|done]. intros top ([? ?] & _). lia. }
  unfold Parse_decode.
  destruct (GetTopLevel lib (GetFileObject file_entry) (name file_entry))
    as [top|e] eqn:Htop.
  - left. exists top.
    destruct (GetTopLevel_Return _ _ _ _ Htop) as [Hread Htruthy].
    split; [repeat split; (lia || done)|].
    unfold Parse_checked, Parse_dispatch. rewrite Htruthy. cbn [negb].
    by rewrite !emit_emit.
  - right. exists e. split.
    + intros top Hdec. apply GetTopLevel_decodes in Hdec. congruence.
    + by destruct e.
Qed.

(** ** Resource release *)

Lemma closes_Parse_run_decodes lib self file_entry top h :
  decodes lib file_entry top →
  closes (trace (Parse_run lib self file_entry h))
  = if all_contained
         (BasenamePath (GetFileSystem file_entry) (name file_entry)) top
         (itervalues (_plugins self))
    then 1%nat else 0%nat.
Proof.
  intros Hdec. rewrite (Parse_run_decodes _ _ _ _ _ Hdec).
  cbn [run_emit trace]. rewrite trace_consume_plugins, !closes_app.
  rewrite closes_flat_map_plugin_trace. by destruct (all_contained _ _ _).
Qed.

(** C1. In every run of [Parse] that ends in one of the listed outcomes
    (size violation, decode failure, empty result, exhaustion of the records
    with or without plugin mismatches) the file object is closed exactly
    once. *)
Theorem close_exactly_once lib self file_entry h :
  listed_outcome lib self file_entry = true →
  ∃ r, exhausts lib (Parse self file_entry) h r ∧ closes (trace r) = 1%nat.
Proof.
  intros Hlisted. exists (Parse_run lib self file_entry h).
  split; [apply exhausts_Parse|]. unfold listed_outcome in Hlisted.
  case_bool_decide as Hle; [by rewrite Parse_run_size_le_0|].
  case_bool_decide as Hgt; [by rewrite Parse_run_size_large|].
  assert (0 < get_size (GetFileObject file_entry) ≤ 50000000) as Hsize by lia.
  destruct (readPlist lib (GetFileObject file_entry)) as [top|e] eqn:Hread.
  - destruct (truthy top) eqn:Htruthy; cbn [negb] in Hlisted.
    + rewrite (closes_Parse_run_decodes lib self file_entry top) by done.
      by rewrite Hlisted.
    + rewrite (Parse_run_unable _ _ _ _
                 ("[PLIST] File is not a plist: "
                  +:+ GetUnicodeString lib (name file_entry)) Hsize); [done|].
      unfold GetTopLevel. by rewrite Hread, Htruthy.
  - destruct (GetTopLevel_decode_failure lib (GetFileObject file_entry)
                (name file_entry) e Hread Hlisted) as [detail Htop].
    by rewrite (Parse_run_unable _ _ _ _ _ Hsize Htop).
Qed.

Lemma close_exactly_once_witness :
  ∃ r, exhausts (sample_imports (Return sample_document))
         (Parse (sample_parser [plugin_A; plugin_wrong; plugin_B])
            (sample_entry 42)) ∅ r ∧
       closes (trace r) = 1%nat.
Proof.
  apply (close_exactly_once (sample_imports (Return sample_document))
           (sample_parser [plugin_A; plugin_wrong; plugin_B])
           (sample_entry 42) ∅).
  vm_compute. reflexivity.
Defined.

Lemma escaping_app plist_name top before after :
  all_contained plist_name top before = true →
  escaping plist_name top (before ++ after) = escaping plist_name top after.
Proof.
  induction before as [|p rest IH]; [done|].
  cbn [all_contained forallb escaping app]. intros [Hp Hrest]%andb_prop.
  rewrite Hp. by apply IH.
Qed.

(** X10. Outside the listed outcomes: when the iteration of a reached plugin
    ends with an exception [e] other than the mismatch signal, the run fails
    with that very [e], no plugin after that one is called, and the final
    close is not reached. *)
Remark escaping_exception_leaves_open lib self file_entry top h before p
    after e :
  decodes lib file_entry top →
  itervalues (_plugins self) = before ++ p :: after →
  all_contained (BasenamePath (GetFileSystem file_entry) (name file_entry))
    top before = true →
  ending (Process p
            (BasenamePath (GetFileSystem file_entry) (name file_entry)) top)
  = Some e →
  contained (Some e) = false →
  ∃ r, exhausts lib (Parse self file_entry) h r ∧
       failure r = Some e ∧
       invoked (trace r) = map plugin_name (before ++ [p]) ∧
       closes (trace r) = 0%nat.
Proof.
  intros Hdec Hreg Hbefore Hp He.
  set (plist_name := BasenamePath (GetFileSystem file_entry) (name file_entry))
    in *.
  assert (all_contained plist_name top (itervalues (_plugins self)) = false)
    as Hesc.
  { rewrite Hreg, all_contained_app, Hbefore.
    cbn [all_contained forallb andb]. by rewrite Hp, He. }
  exists (Parse_run lib self file_entry h). split; [apply exhausts_Parse|].
  split; [|split].
  - rewrite (Parse_run_decodes _ _ _ _ _ Hdec). cbn [run_emit failure].
    rewrite failure_consume_plugins. fold plist_name.
    rewrite Hreg, escaping_app by done. cbn [escaping]. by rewrite Hp, He.
  - rewrite (invoked_Parse_run _ _ _ _ _ Hdec). fold plist_name.
    rewrite Hreg, reached_app by done. cbn [reached]. by rewrite Hp, He.
  - rewrite (closes_Parse_run_decodes lib self file_entry top) by done.
    fold plist_name. by rewrite Hesc.
Qed.

(** ** Plugin mismatches *)

Lemma escaping_not_mismatch plist_name top plugins arg0 arg1 :
  escaping plist_name top plugins ≠ Some (WrongPlistPlugin arg0 arg1).
Proof.
  induction plugins as [|p rest IH]; [done|]. cbn [escaping].
  destruct (contained (ending (Process p plist_name top))) eqn:Hp; [done|].
  intros He. by rewrite He in Hp.
Qed.

Lemma trace_after_mismatch plist_name top before p after arg0 arg1 :
  all_contained plist_name top before = true →
  ending (Process p plist_name top) = Some (WrongPlistPlugin arg0 arg1) →
  ∃ t1 t2,
    flat_map (plugin_trace plist_name top)
      (reached plist_name top (before ++ p :: after))
    ++ (if all_contained plist_name top (before ++ p :: after)
        then [EClose] else [])
    = t1 ++ ELogDebug (wrong_plugin_note arg0 arg1) :: t2 ∧
    match after with
    | [] => t2 = [EClose]
    | q :: _ => ∃ t3, t2 = EProcess (plugin_name q) plist_name :: t3
    end.
Proof.
  intros Hbefore Hp.
  rewrite reached_app, all_contained_app, Hbefore by done.
  cbn [reached all_contained forallb andb]. rewrite Hp. cbn [contained].
  rewrite flat_map_app. cbn [flat_map]. unfold plugin_trace at 2.
  rewrite Hp. cbn [mismatch_note].
  exists (flat_map (plugin_trace plist_name top) before
          ++ EProcess (plugin_name p) plist_name
             :: stamps (plugin_name p) (records (Process p plist_name top))).
  eexists. split.
  - rewrite <- !app_assoc. cbn [app]. rewrite <- !app_assoc. cbn [app].
    reflexivity.
  - destruct after as [|q after']; [done|].
    cbn [reached flat_map]. unfold plugin_trace at 1. cbn [app].
    eexists. reflexivity.
Qed.

(** C2. For every decoded document and every registry: the mismatch signal
    never ends the run; when a reached plugin raises it, the note is logged
    and the next effect is the call of the following plugin's [Process] (or
    the final close after the last plugin); and when every plugin raises it
    in place of its records, the run ends without failure, with no record,
    every plugin called and the file object closed once. *)
Theorem mismatch_is_contained lib self file_entry h top :
  decodes lib file_entry top →
  ∃ r, exhausts lib (Parse self file_entry) h r ∧
    (∀ arg0 arg1, failure r ≠ Some (WrongPlistPlugin arg0 arg1)) ∧
    (∀ before p after arg0 arg1,
        itervalues (_plugins self) = before ++ p :: after →
        all_contained
          (BasenamePath (GetFileSystem file_entry) (name file_entry)) top
          before = true →
        ending (Process p
                  (BasenamePath (GetFileSystem file_entry) (name file_entry))
                  top)
        = Some (WrongPlistPlugin arg0 arg1) →
        ∃ t1 t2,
          trace r = t1 ++ ELogDebug (wrong_plugin_note arg0 arg1) :: t2 ∧
          match after with
          | [] => t2 = [EClose]
          | q :: _ =>
              ∃ t3, t2 = EProcess (plugin_name q)
                           (BasenamePath (GetFileSystem file_entry)
                              (name file_entry)) :: t3
          end) ∧
    (Forall
       (λ p, records (Process p
                        (BasenamePath (GetFileSystem file_entry)
                           (name file_entry)) top) = [] ∧
             ∃ arg0 arg1,
               ending (Process p
                         (BasenamePath (GetFileSystem file_entry)
                            (name file_entry)) top)
               = Some (WrongPlistPlugin arg0 arg1))
       (itervalues (_plugins self)) →
     failure r = None ∧ yielded r = [] ∧
     invoked (trace r) = map plugin_name (itervalues (_plugins self)) ∧
     closes (trace r) = 1%nat).
Proof.
  intros Hdec. exists (Parse_run lib self file_entry h).
  split; [apply exhausts_Parse|].
  set (plist_name := BasenamePath (GetFileSystem file_entry) (name file_entry)).
  split; [|split].
  - intros arg0 arg1. rewrite (Parse_run_decodes _ _ _ _ _ Hdec).
    cbn [run_emit failure]. rewrite failure_consume_plugins.
    apply escaping_not_mismatch.
  - intros before p after arg0 arg1 Hreg Hbefore Hp.
    rewrite (Parse_run_decodes _ _ _ _ _ Hdec). cbn [run_emit trace].
    rewrite trace_consume_plugins. fold plist_name. rewrite Hreg.
    destruct (trace_after_mismatch plist_name top before p after arg0 arg1
                Hbefore Hp) as (t1 & t2 & -> & Ht2).
    exists (prologue file_entry ++ t1), t2. by rewrite <- app_assoc.
  - intros Hall.
    assert (all_contained plist_name top (itervalues (_plugins self)) = true)
      as Hcontained.
    { unfold all_contained. apply forallb_forall. intros p Hin.
      rewrite Forall_forall in Hall.
      apply list_elem_of_In in Hin.
      destruct (Hall p Hin) as (_ & arg0 & arg1 & ->). done. }
    assert (produced plist_name top (itervalues (_plugins self)) = [])
      as Hnone.
    { unfold produced. clear Hcontained.
      induction (itervalues (_plugins self)) as [|p rest IH]; [done|].
      apply Forall_cons in Hall as [(Hp & _) Hrest].
      cbn [flat_map]. by rewrite Hp, IH. }
    repeat split.
    + rewrite (Parse_run_decodes _ _ _ _ _ Hdec). cbn [run_emit failure].
      rewrite failure_consume_plugins. by apply escaping_all_contained.
    + pose proof (attribution_consume_plugins plist_name top
                    (itervalues (_plugins self)) h) as Hattr.
      rewrite reached_all_contained, Hnone in Hattr by done.
      rewrite (Parse_run_decodes _ _ _ _ _ Hdec). cbn [run_emit yielded].
      by apply map_eq_nil in Hattr.
    + rewrite (invoked_Parse_run _ _ _ _ _ Hdec).
      by rewrite reached_all_contained.
    + rewrite (closes_Parse_run_decodes lib self file_entry top) by done.
      fold plist_name. by rewrite Hcontained.
Qed.

Lemma mismatch_is_contained_witness :
  ∃ r, exhausts (sample_imports (Return sample_document))
         (Parse (sample_parser [plugin_wrong; plugin_wrong])
            (sample_entry 42)) ∅ r ∧
       failure r = None ∧ yielded r = [] ∧
       invoked (trace r) = ["W"; "W"] ∧
       closes (trace r) = 1%nat.
Proof.
  destruct (mismatch_is_contained (sample_imports (Return sample_document))
              (sample_parser [plugin_wrong; plugin_wrong]) (sample_entry 42)
              ∅ sample_document) as (r & Hr & _ & _ & Hall).
  - repeat split; simpl; (lia || reflexivity).
  - exists r. split; [exact Hr|]. apply Hall.
    repeat constructor; eexists _, _; reflexivity.
Defined.

(** ** Ordering *)

Lemma fst_attribution ys : map fst (attribution ys) = map fst ys.
Proof. unfold attribution. rewrite map_map. by apply map_ext. Qed.

Lemma fst_produced plist_name top plugins :
  map fst (produced plist_name top plugins)
  = flat_map (λ p, records (Process p plist_name top)) plugins.
Proof.
  unfold produced. induction plugins as [|p rest IH]; [done|].
  cbn [flat_map]. rewrite map_app, IH. f_equal.
  rewrite map_map. apply map_id.
Qed.

Lemma yielded_Parse_run lib self file_entry top h :
  decodes lib file_entry top →
  attribution (yielded (Parse_run lib self file_entry h))
  = map (λ op, (op.1, Some (PStr op.2)))
      (produced (BasenamePath (GetFileSystem file_entry) (name file_entry))
         top
         (reached (BasenamePath (GetFileSystem file_entry) (name file_entry))
            top (itervalues (_plugins self)))).
Proof.
  intros Hdec. rewrite (Parse_run_decodes _ _ _ _ _ Hdec).
  cbn [run_emit yielded]. apply attribution_consume_plugins.
Qed.

(** C6. The plugins are called one at a time in the order of the registry:
    the trace of a run that reaches the loop is the prologue followed by the
    contribution of each plugin in turn (its [Process] call, then the store
    and yield of each of its records, then the note of a mismatch), so every
    record of a plugin is yielded before the next plugin is called; the
    records reach the consumer in that order; and for a registry [H1; H2]
    the records of [H1] come before those of [H2]. *)
Theorem plugin_order lib self file_entry h top :
  decodes lib file_entry top →
  ∃ r, exhausts lib (Parse self file_entry) h r ∧
    reached (BasenamePath (GetFileSystem file_entry) (name file_entry)) top
      (itervalues (_plugins self))
    `prefix_of` itervalues (_plugins self) ∧
    trace r
    = prologue file_entry
      ++ flat_map
           (plugin_trace
              (BasenamePath (GetFileSystem file_entry) (name file_entry)) top)
           (reached
              (BasenamePath (GetFileSystem file_entry) (name file_entry)) top
              (itervalues (_plugins self)))
      ++ (if all_contained
               (BasenamePath (GetFileSystem file_entry) (name file_entry))
               top (itervalues (_plugins self))
          then [EClose] else []) ∧
    invoked (trace r)
    = map plugin_name
        (reached (BasenamePath (GetFileSystem file_entry) (name file_entry))
           top (itervalues (_plugins self))) ∧
    map fst (yielded r)
    = flat_map
        (λ p, records
                (Process p
                   (BasenamePath (GetFileSystem file_entry) (name file_entry))
                   top))
        (reached (BasenamePath (GetFileSystem file_entry) (name file_entry))
           top (itervalues (_plugins self))) ∧
    (all_contained
       (BasenamePath (GetFileSystem file_entry) (name file_entry)) top
       (itervalues (_plugins self)) = true →
     reached (BasenamePath (GetFileSystem file_entry) (name file_entry)) top
       (itervalues (_plugins self))
     = itervalues (_plugins self)) ∧
    (∀ H1 H2,
        itervalues (_plugins self) = [H1; H2] →
        contained
          (ending (Process H1
                     (BasenamePath (GetFileSystem file_entry)
                        (name file_entry)) top)) = true →
        map fst (yielded r)
        = records (Process H1
                     (BasenamePath (GetFileSystem file_entry)
                        (name file_entry)) top)
          ++ records (Process H2
                        (BasenamePath (GetFileSystem file_entry)
                           (name file_entry)) top)).
Proof.
  intros Hdec. exists (Parse_run lib self file_entry h).
  split; [apply exhausts_Parse|].
  set (plist_name := BasenamePath (GetFileSystem file_entry) (name file_entry)).
  assert (map fst (yielded (Parse_run lib self file_entry h))
          = flat_map (λ p, records (Process p plist_name top))
              (reached plist_name top (itervalues (_plugins self))))
    as Hyielded.
  { rewrite <- fst_attribution, (yielded_Parse_run _ _ _ _ _ Hdec).
    rewrite map_map. cbn [fst]. rewrite <- fst_produced.
    by apply map_ext. }
  repeat split.
  - apply reached_prefix.
  - rewrite (Parse_run_decodes _ _ _ _ _ Hdec). cbn [run_emit trace].
    by rewrite trace_consume_plugins.
  - apply (invoked_Parse_run _ _ _ _ _ Hdec).
  - exact Hyielded.
  - apply reached_all_contained.
  - intros H1 H2 Hreg Hc. rewrite Hyielded, Hreg.
    cbn [reached flat_map]. rewrite Hc. cbn [flat_map].
    destruct (contained (ending (Process H2 plist_name top)));
      cbn [flat_map]; by rewrite app_nil_r.
Qed.

Lemma plugin_order_witness :
  ∃ r, exhausts (sample_imports (Return sample_document))
         (Parse (sample_parser [plugin_A; plugin_B]) (sample_entry 42)) ∅ r ∧
       map fst (yielded r) = [1%nat; 2%nat; 3%nat] ∧
       invoked (trace r) = ["A"; "B"].
Proof.
  destruct (plugin_order (sample_imports (Return sample_document))
              (sample_parser [plugin_A; plugin_B]) (sample_entry 42) ∅
              sample_document) as (r & Hr & _ & _ & Hinv & _ & _ & Hboth).
  - repeat split; simpl; (lia || reflexivity).
  - exists r. split; [exact Hr|]. split.
    + apply (Hboth plugin_A plugin_B); reflexivity.
    + exact Hinv.
Defined.

(** ** Attribution *)

(** C7. Every record reaches the consumer with its [plugin] attribute set to
    the name of the plugin whose [Process] handed it out; every other
    attribute of a yielded record is as it was in the store before the run;
    at the end of the run no attribute other than [plugin] has changed on
    any object, and an object that was not yielded has not changed at all. *)
Theorem plugin_attribution lib self file_entry h top :
  decodes lib file_entry top →
  ∃ r, exhausts lib (Parse self file_entry) h r ∧
    attribution (yielded r)
    = map (λ op, (op.1, Some (PStr op.2)))
        (produced (BasenamePath (GetFileSystem file_entry) (name file_entry))
           top
           (reached
              (BasenamePath (GetFileSystem file_entry) (name file_entry))
              top (itervalues (_plugins self)))) ∧
    Forall (λ ya, ∀ field, field ≠ "plugin" →
                  ya.2 !! field = attrs_of h ya.1 !! field) (yielded r) ∧
    (∀ o field, field ≠ "plugin" →
                attrs_of (final_store r) o !! field = attrs_of h o !! field) ∧
    (∀ o, (∀ a, (o, a) ∉ yielded r) → final_store r !! o = h !! o).
Proof.
  intros Hdec. exists (Parse_run lib self file_entry h).
  split; [apply exhausts_Parse|].
  split; [apply (yielded_Parse_run _ _ _ _ _ Hdec)|].
  rewrite (Parse_run_decodes _ _ _ _ _ Hdec).
  destruct (frame_consume_plugins
              (BasenamePath (GetFileSystem file_entry) (name file_entry)) top
              (itervalues (_plugins self)) h) as (Hsame & Hys & Hrest).
  done.
Qed.

Lemma plugin_attribution_witness :
  ∃ r, exhausts (sample_imports (Return sample_document))
         (Parse (sample_parser [plugin_A; plugin_B]) (sample_entry 42))
         {[ 1%nat := {[ "path" := PStr "/tmp" ]} ]} r ∧
       attribution (yielded r)
       = [(1%nat, Some (PStr "A")); (2%nat, Some (PStr "A"));
          (3%nat, Some (PStr "B"))] ∧
       Forall (λ ya, ∀ field, field ≠ "plugin" →
                     ya.2 !! field
                     = attrs_of {[ 1%nat := {[ "path" := PStr "/tmp" ]} ]}
                         ya.1 !! field) (yielded r).
Proof.
  destruct (plugin_attribution (sample_imports (Return sample_document))
              (sample_parser [plugin_A; plugin_B]) (sample_entry 42)
              {[ 1%nat := {[ "path" := PStr "/tmp" ]} ]} sample_document)
    as (r & Hr & Hattr & Hfields & _).
  - repeat split; simpl; (lia || reflexivity).
  - exists r. split; [exact Hr|]. split; [exact Hattr|exact Hfields].
Defined.

(** ** The registry *)

Lemma GetRegisteredPlugins_filter available ids registry :
  GetRegisteredPlugins available (Some ids) = inr registry →
  Forall (λ p, plugin_name p ∈ ids) (itervalues registry).
Proof.
  revert registry. induction available as [|p rest IH]; intros registry.
  - intros [= <-]. constructor.
  - cbn [GetRegisteredPlugins].
    destruct (GetRegisteredPlugins rest (Some ids)) as [err|reg]; [done|].
    case_bool_decide as Hin; [|intros [= <-]; by apply IH].
    case_bool_decide; [done|]. intros [= <-].
    constructor; [done|by apply IH].
Qed.

Lemma GetRegisteredPlugins_all available registry :
  GetRegisteredPlugins available None = inr registry →
  itervalues registry = available.
Proof.
  revert registry. induction available as [|p rest IH]; intros registry.
  - by intros [= <-].
  - cbn [GetRegisteredPlugins].
    destruct (GetRegisteredPlugins rest None) as [err|reg]; [done|].
    case_bool_decide; [done|]. intros [= <-].
    unfold itervalues in *. cbn [map snd]. f_equal. by apply IH.
Qed.

(** Only plugins of the registry are ever called. *)
Lemma invoked_registry lib self file_entry h plugin :
  plugin ∈ invoked (trace (Parse_run lib self file_entry h)) →
  plugin ∈ map plugin_name (itervalues (_plugins self)).
Proof.
  destruct (Parse_run_cases lib self file_entry h) as [[top Hdec]|[-> _]].
  - rewrite (invoked_Parse_run _ _ _ _ _ Hdec).
    destruct (reached_prefix
                (BasenamePath (GetFileSystem file_entry) (name file_entry))
                top (itervalues (_plugins self))) as [rest Hrest].
    rewrite Hrest at 2. rewrite map_app. intros Hin. apply elem_of_app.
    by left.
  - by intros ?%elem_of_nil.
Qed.

(** C8. With a filter, the registry the parser is built with holds only
    plugins whose name is in the filter set, and a plugin whose name is not
    in it is never called, whatever the file; without a filter the registry
    holds every available plugin, in declaration order.  With the filter
    [{"A"}] the plugin ["B"] is thus never called. *)
Theorem plugin_filter available cfg self :
  __init__ available cfg = inr self →
  match parsers cfg with
  | Some ids =>
      Forall (λ p, plugin_name p ∈ ids) (itervalues (_plugins self)) ∧
      ∀ lib file_entry h plugin,
        plugin ∉ ids →
        ∃ r, exhausts lib (Parse self file_entry) h r ∧
             (plugin ∉ invoked (trace r))
  | None => itervalues (_plugins self) = available
  end.
Proof.
  unfold __init__.
  destruct (GetRegisteredPlugins available (parsers cfg)) as [err|registry]
    eqn:Hreg; [done|].
  intros [= <-]. cbn [_plugins]. destruct (parsers cfg) as [ids|].
  - pose proof (GetRegisteredPlugins_filter _ _ _ Hreg) as Hids.
    split; [exact Hids|]. intros lib file_entry h plugin Hnot.
    exists (Parse_run lib {| _plugins := registry |} file_entry h).
    split; [apply exhausts_Parse|].
    intros Hin%invoked_registry. cbn [_plugins] in Hin.
    apply list_elem_of_In, in_map_iff in Hin as (p & <- & Hp).
    apply list_elem_of_In in Hp. rewrite Forall_forall in Hids.
    by apply Hnot, Hids.
  - by apply GetRegisteredPlugins_all.
Qed.

Lemma plugin_filter_witness :
  Forall (λ p, plugin_name p ∈ ({["A"]} : gset string))
    (itervalues (_plugins (sample_parser [plugin_A]))) ∧
  ∃ r, exhausts (sample_imports (Return sample_document))
         (Parse (sample_parser [plugin_A]) (sample_entry 42)) ∅ r ∧
       ("B" ∉ invoked (trace r)).
Proof.
  destruct (plugin_filter [plugin_A; plugin_B; plugin_wrong]
              {| parsers := Some {["A"]} |} (sample_parser [plugin_A]))
    as [Hregistry Hnever].
  - vm_compute. reflexivity.
  - split; [exact Hregistry|]. apply Hnever.
    intros Hin%elem_of_singleton. discriminate Hin.
Defined.

(** * Further properties of [GetTopLevel] and [Parse] *)

(** ** What leaves [GetTopLevel] *)

(** X3. An exception that leaves [GetTopLevel] is never one of the six
    decode failure classes: it is [UnableToParseFile], or it is the very
    exception the deserializer raised, of a class no handler names. *)
Theorem GetTopLevel_raises lib file_object file_name e :
  GetTopLevel lib file_object file_name = Raise e →
  decode_failure e = false ∧
  ((∃ msg, e = UnableToParseFile msg) ∨ readPlist lib file_object = Raise e).
Proof.
  unfold GetTopLevel. destruct (readPlist lib file_object) as [top|e'].
  - destruct (negb (truthy top)); [|done]. intros [= <-]. split; [done|].
    left. by eexists.
  - destruct e'; intros [= <-]; (split; [done|]);
      first [by right | left; by eexists].
Qed.

Lemma GetTopLevel_raises_witness :
  decode_failure (UnableToParseFile "[PLIST] Unable to parse XML file, reason: x")
  = false ∧
  ((∃ msg, UnableToParseFile "[PLIST] Unable to parse XML file, reason: x"
           = UnableToParseFile msg) ∨
   readPlist (sample_imports (Raise (ValueError "x")))
     (GetFileObject (sample_entry 42))
   = Raise (UnableToParseFile "[PLIST] Unable to parse XML file, reason: x")).
Proof.
  apply (GetTopLevel_raises (sample_imports (Raise (ValueError "x")))
           (GetFileObject (sample_entry 42)) "com.apple.plist").
  reflexivity.
Defined.

Lemma Parse_run_foreign lib self file_entry h e :
  0 < get_size (GetFileObject file_entry) ≤ 50000000 →
  GetTopLevel lib (GetFileObject file_entry) (name file_entry) = Raise e →
  (∀ msg, e ≠ UnableToParseFile msg) →
  Parse_run lib self file_entry h
  = stopped (Some e) [EGetFileObject; EGetSize; EReadPlist] h.
Proof.
  intros Hsize Htop Hne. unfold Parse_run.
  rewrite Parse_body_size_ok by done. unfold Parse_decode. rewrite Htop.
  destruct e; try done. by destruct (Hne msg).
Qed.

(** X2. An exception of the deserializer that [GetTopLevel] does not name
    (an [IOError], say) goes through [GetTopLevel] and [Parse] unchanged, and
    [Parse] does not close the file object on its way out. *)
Theorem foreign_decode_exception lib self file_entry h e :
  0 < get_size (GetFileObject file_entry) ≤ 50000000 →
  readPlist lib (GetFileObject file_entry) = Raise e →
  decode_failure e = false →
  (∀ msg, e ≠ UnableToParseFile msg) →
  GetTopLevel lib (GetFileObject file_entry) (name file_entry) = Raise e ∧
  ∃ r, exhausts lib (Parse self file_entry) h r ∧
       failure r = Some e ∧
       trace r = [EGetFileObject; EGetSize; EReadPlist] ∧
       closes (trace r) = 0%nat ∧
       yielded r = [].
Proof.
  intros Hsize Hread Hkind Hne.
  assert (GetTopLevel lib (GetFileObject file_entry) (name file_entry)
          = Raise e) as Htop.
  { unfold GetTopLevel. rewrite Hread. by destruct e. }
  split; [exact Htop|]. exists (Parse_run lib self file_entry h).
  split; [apply exhausts_Parse|].
  by rewrite (Parse_run_foreign _ _ _ _ _ Hsize Htop Hne).
Qed.

Lemma foreign_decode_exception_witness :
  GetTopLevel (sample_imports (Raise (OtherException "IOError" "read")))
    (GetFileObject (sample_entry 42)) (name (sample_entry 42))
  = Raise (OtherException "IOError" "read") ∧
  ∃ r, exhausts (sample_imports (Raise (OtherException "IOError" "read")))
         (Parse (sample_parser [plugin_A]) (sample_entry 42)) ∅ r ∧
       failure r = Some (OtherException "IOError" "read") ∧
       trace r = [EGetFileObject; EGetSize; EReadPlist] ∧
       closes (trace r) = 0%nat ∧
       yielded r = [].
Proof.
  apply (foreign_decode_exception
           (sample_imports (Raise (OtherException "IOError" "read")))
           (sample_parser [plugin_A]) (sample_entry 42) ∅
           (OtherException "IOError" "read")).
  - simpl. lia.
  - reflexivity.
  - reflexivity.
  - intros msg. discriminate.
Defined.

(** ** The size guard, from the other side *)

(** X1. The deserializer is called exactly when the reported size is
    between 1 and 50,000,000 bytes, both included, and then right after the
    size query. *)
Theorem deserializer_called_iff_size_ok lib self file_entry h :
  ∃ r, exhausts lib (Parse self file_entry) h r ∧
       (EReadPlist ∈ trace r ↔
        0 < get_size (GetFileObject file_entry) ≤ 50000000) ∧
       (EReadPlist ∈ trace r →
        ∃ rest, trace r = EGetFileObject :: EGetSize :: EReadPlist :: rest).
Proof.
  exists (Parse_run lib self file_entry h). split; [apply exhausts_Parse|].
  assert (EReadPlist ∉ [EGetFileObject; EGetSize; EClose]) as Hnot.
  { rewrite !not_elem_of_cons. repeat split; try done. apply not_elem_of_nil. }
  destruct (decide (get_size (GetFileObject file_entry) ≤ 0)) as [Hle|Hle].
  { rewrite Parse_run_size_le_0 by done. cbn [stopped trace].
    split; [split; [done|lia]|done]. }
  destruct (decide (50000000 < get_size (GetFileObject file_entry)))
    as [Hgt|Hgt].
  { rewrite Parse_run_size_large by done. cbn [stopped trace].
    split; [split; [done|lia]|done]. }
  assert (∃ rest, trace (Parse_run lib self file_entry h)
                  = EGetFileObject :: EGetSize :: EReadPlist :: rest)
    as [rest Hrest].
  { unfold Parse_run. rewrite Parse_body_size_ok by lia.
    unfold Parse_decode. rewrite emit_emit, complete_emit.
    cbn [run_emit trace app]. by eexists. }
  rewrite Hrest. split; [|by eexists].
  split; [lia|]. intros _. do 2 right. left.
Qed.

(** ** The close, on every input *)

(** X4. Whatever the file, the deserializer and the plugins do, [Parse]
    closes the file object at most once, and when it does the close is the
    last thing it does: nothing is read, called or yielded after it. *)
Theorem close_is_last lib self file_entry h :
  ∃ r, exhausts lib (Parse self file_entry) h r ∧
       (closes (trace r) = 0%nat ∨
        ∃ t, trace r = t ++ [EClose] ∧ closes t = 0%nat).
Proof.
  exists (Parse_run lib self file_entry h). split; [apply exhausts_Parse|].
  destruct (decide (get_size (GetFileObject file_entry) ≤ 0)) as [Hle|Hle].
  { rewrite Parse_run_size_le_0 by done. right.
    by exists [EGetFileObject; EGetSize]. }
  destruct (decide (50000000 < get_size (GetFileObject file_entry)))
    as [Hgt|Hgt].
  { rewrite Parse_run_size_large by done. right.
    by exists [EGetFileObject; EGetSize]. }
  assert (0 < get_size (GetFileObject file_entry) ≤ 50000000) as Hsize by lia.
  destruct (GetTopLevel lib (GetFileObject file_entry) (name file_entry))
    as [top|e] eqn:Htop.
  - apply GetTopLevel_Return in Htop as [Hread Htruthy].
    assert (decodes lib file_entry top) as Hdec by done.
    rewrite (Parse_run_decodes _ _ _ _ _ Hdec). cbn [run_emit trace].
    rewrite trace_consume_plugins.
    destruct (all_contained _ _ _).
    + right. eexists. rewrite app_assoc. split; [reflexivity|].
      by rewrite closes_app, closes_flat_map_plugin_trace.
    + left. by rewrite !closes_app, closes_flat_map_plugin_trace.
  - assert ((∃ msg, e = UnableToParseFile msg)
            ∨ ∀ msg, e ≠ UnableToParseFile msg) as [[msg ->]|Hne].
    { destruct e; try (by right). left. by eexists. }
    + rewrite (Parse_run_unable _ _ _ _ _ Hsize Htop). right.
      by exists [EGetFileObject; EGetSize; EReadPlist].
    + rewrite (Parse_run_foreign _ _ _ _ _ Hsize Htop Hne). by left.
Qed.

Lemma escaping_exception_leaves_open_witness :
  ∃ r, exhausts (sample_imports (Return sample_document))
         (Parse (sample_parser [plugin_wrong; plugin_broken; plugin_B])
            (sample_entry 42)) ∅ r ∧
       failure r = Some (ValueError "bad key") ∧
       invoked (trace r) = ["W"; "X"] ∧
       closes (trace r) = 0%nat.
Proof.
  apply (escaping_exception_leaves_open
           (sample_imports (Return sample_document))
           (sample_parser [plugin_wrong; plugin_broken; plugin_B])
           (sample_entry 42) sample_document ∅
           [plugin_wrong] plugin_broken [plugin_B] (ValueError "bad key")).
  - repeat split; simpl; (lia || reflexivity).
  - reflexivity.
  - reflexivity.
  - reflexivity.
  - reflexivity.
Defined.

(** ** One advancement *)

Lemma dispatch_step plist_name top plugins h :
  let s := dispatch plist_name top plugins h in
  ((∀ o, out s ≠ Yielded o) ∧ gen s = GFinished ∧ store s = h) ∨
  (∃ o pre p pending e rest,
      out s = Yielded o ∧
      effects s = pre ++ [ESetPlugin o (plugin_name p); EYield o] ∧
      closes pre = 0%nat ∧
      gen s = GSuspended plist_name top p pending e rest ∧
      store s = set_plugin h o (plugin_name p)).
Proof.
  induction plugins as [|p rest IH]; [by left|]. cbn [dispatch].
  destruct (records (Process p plist_name top)) as [|o pending].
  - cbn [resume].
    assert (∀ es, closes es = 0%nat →
      let s := emit es (dispatch plist_name top rest h) in
      ((∀ o, out s ≠ Yielded o) ∧ gen s = GFinished ∧ store s = h) ∨
      (∃ o pre p pending e rest,
          out s = Yielded o ∧
          effects s = pre ++ [ESetPlugin o (plugin_name p); EYield o] ∧
          closes pre = 0%nat ∧
          gen s = GSuspended plist_name top p pending e rest ∧
          store s = set_plugin h o (plugin_name p))) as Hemit.
    { intros es Hes. destruct IH as [IH|IH]; [by left|right].
      destruct IH as (o & pre & q & pending & e & rest' & Ho & He & Hc & Hg & Hs).
      exists o, (es ++ pre), q, pending, e, rest'. cbn [emit out effects gen store].
      rewrite He, app_assoc, closes_app, Hes, Hc. done. }
    destruct (ending (Process p plist_name top)) as [e|].
    + destruct e; try (by left);
        rewrite ?emit_emit; by apply Hemit.
    + by apply Hemit.
  - right. exists o, [EProcess (plugin_name p) plist_name], p, pending,
      (ending (Process p plist_name top)), rest. done.
Qed.

Lemma next_step lib g h :
  let s := next lib g h in
  ((∀ o, out s ≠ Yielded o) ∧ gen s = GFinished ∧ store s = h) ∨
  (∃ o pre plist_name top p pending e rest,
      out s = Yielded o ∧
      effects s = pre ++ [ESetPlugin o (plugin_name p); EYield o] ∧
      closes pre = 0%nat ∧
      gen s = GSuspended plist_name top p pending e rest ∧
      store s = set_plugin h o (plugin_name p)).
Proof.
  assert (∀ plist_name top plugins es, closes es = 0%nat →
    let s := emit es (dispatch plist_name top plugins h) in
    ((∀ o, out s ≠ Yielded o) ∧ gen s = GFinished ∧ store s = h) ∨
    (∃ o pre plist_name top p pending e rest,
        out s = Yielded o ∧
        effects s = pre ++ [ESetPlugin o (plugin_name p); EYield o] ∧
        closes pre = 0%nat ∧
        gen s = GSuspended plist_name top p pending e rest ∧
        store s = set_plugin h o (plugin_name p))) as Hemit.
  { intros plist_name top plugins es Hes.
    destruct (dispatch_step plist_name top plugins h) as [IH|IH]; [by left|].
    right.
    destruct IH as (o & pre & q & pending & e & rest' & Ho & He & Hc & Hg & Hs).
    exists o, (es ++ pre), plist_name, top, q, pending, e, rest'.
    cbn [emit out effects gen store].
    rewrite He, app_assoc, closes_app, Hes, Hc. done. }
  destruct g as [self file_entry|plist_name top p pending e rest|];
    cbn [next]; [| |by left].
  - unfold Parse_body, Parse_decode, Parse_checked, Parse_dispatch.
    repeat case_bool_decide; try (by left).
    destruct (GetTopLevel _ _ _) as [top|e]; [|left; by destruct e].
    destruct (negb (truthy top)); [by left|].
    rewrite !emit_emit. by apply Hemit.
  - destruct pending as [|o pending]; cbn [resume].
    + destruct e as [e|]; [|by apply (Hemit _ _ _ [])].
      destruct e; try (by left). by apply Hemit.
    + right. exists o, [], plist_name, top, p, pending, e, rest. done.
Qed.

(** X5. An advancement that hands out a record ends with the store of its
    [plugin] attribute and the [yield] and has not closed the file object;
    the generator is then suspended inside the loop, so the file object stays
    open for as long as the consumer does not ask for more. *)
Theorem yield_keeps_file_open lib g h o :
  out (next lib g h) = Yielded o →
  ∃ pre plist_name top p pending e rest,
    effects (next lib g h)
    = pre ++ [ESetPlugin o (plugin_name p); EYield o] ∧
    closes (effects (next lib g h)) = 0%nat ∧
    gen (next lib g h) = GSuspended plist_name top p pending e rest ∧
    store (next lib g h) = set_plugin h o (plugin_name p).
Proof.
  intros Hout. destruct (next_step lib g h) as [[Hno _]|Hyes].
  - by destruct (Hno o).
  - destruct Hyes as (o' & pre & plist_name & top & p & pending & e & rest
                      & Ho & He & Hc & Hg & Hs).
    rewrite Hout in Ho. injection Ho as <-.
    exists pre, plist_name, top, p, pending, e, rest.
    repeat split; try done. by rewrite He, closes_app, Hc.
Qed.

Lemma yield_keeps_file_open_witness :
  ∃ pre plist_name top p pending e rest,
    effects (next (sample_imports (Return sample_document))
               (Parse (sample_parser [plugin_wrong; plugin_A; plugin_B])
                  (sample_entry 42)) ∅)
    = pre ++ [ESetPlugin 1%nat (plugin_name p); EYield 1%nat] ∧
    closes (effects (next (sample_imports (Return sample_document))
                       (Parse (sample_parser [plugin_wrong; plugin_A; plugin_B])
                          (sample_entry 42)) ∅)) = 0%nat ∧
    gen (next (sample_imports (Return sample_document))
           (Parse (sample_parser [plugin_wrong; plugin_A; plugin_B])
              (sample_entry 42)) ∅)
    = GSuspended plist_name top p pending e rest ∧
    store (next (sample_imports (Return sample_document))
             (Parse (sample_parser [plugin_wrong; plugin_A; plugin_B])
                (sample_entry 42)) ∅)
    = set_plugin ∅ 1%nat (plugin_name p).
Proof.
  apply (yield_keeps_file_open (sample_imports (Return sample_document))
           (Parse (sample_parser [plugin_wrong; plugin_A; plugin_B])
              (sample_entry 42)) ∅ 1%nat).
  reflexivity.
Defined.

(** X6. An advancement that does not hand out a record ends the generator,
    whether it returned or raised; advancing it again gives [StopIteration]
    with no effect at all, so the file object is not closed a second time and
    no plugin is called again. *)
Theorem finished_stays_finished lib g h :
  (∀ o, out (next lib g h) ≠ Yielded o) →
  gen (next lib g h) = GFinished ∧
  store (next lib g h) = h ∧
  ∀ h', out (next lib (gen (next lib g h)) h') = StopIteration ∧
        effects (next lib (gen (next lib g h)) h') = [] ∧
        store (next lib (gen (next lib g h)) h') = h'.
Proof.
  intros Hno. destruct (next_step lib g h) as [(_ & Hg & Hs)|Hyes].
  - rewrite Hg. done.
  - destruct Hyes as (o & pre & plist_name & top & p & pending & e & rest
                      & Ho & _).
    by destruct (Hno o).
Qed.

Lemma finished_stays_finished_witness :
  gen (next (sample_imports (Return sample_document))
         (Parse (sample_parser [plugin_wrong]) (sample_entry 42)) ∅)
  = GFinished ∧
  store (next (sample_imports (Return sample_document))
           (Parse (sample_parser [plugin_wrong]) (sample_entry 42)) ∅) = ∅ ∧
  ∀ h', out (next (sample_imports (Return sample_document))
               (gen (next (sample_imports (Return sample_document))
                       (Parse (sample_parser [plugin_wrong]) (sample_entry 42))
                       ∅)) h') = StopIteration ∧
        effects (next (sample_imports (Return sample_document))
                   (gen (next (sample_imports (Return sample_document))
                           (Parse (sample_parser [plugin_wrong])
                              (sample_entry 42)) ∅)) h') = [] ∧
        store (next (sample_imports (Return sample_document))
                 (gen (next (sample_imports (Return sample_document))
                         (Parse (sample_parser [plugin_wrong])
                            (sample_entry 42)) ∅)) h') = h'.
Proof.
  apply (finished_stays_finished (sample_imports (Return sample_document))
           (Parse (sample_parser [plugin_wrong]) (sample_entry 42)) ∅).
  intros o. vm_compute. discriminate.
Defined.

(** ** What the plugins are called with *)

Lemma EProcess_stamps plugin pending p n :
  EProcess p n ∉ stamps plugin pending.
Proof.
  induction pending as [|o pending IH]; [apply not_elem_of_nil|].
  cbn [stamps flat_map app]. fold (stamps plugin pending).
  rewrite !not_elem_of_cons. done.
Qed.

Lemma EProcess_plugin_trace plist_name top q p n :
  EProcess p n ∈ plugin_trace plist_name top q →
  p = plugin_name q ∧ n = plist_name.
Proof.
  unfold plugin_trace. rewrite elem_of_cons, elem_of_app.
  intros [[= -> ->]|[Hin|Hin]]; [done| |].
  - by apply EProcess_stamps in Hin.
  - destruct (ending (Process q plist_name top)) as [[]|]; cbn in Hin;
      try (by apply elem_of_nil in Hin).
    apply elem_of_cons in Hin as [[=]|Hin]. by apply elem_of_nil in Hin.
Qed.

Lemma EProcess_flat_map_plugin_trace plist_name top plugins p n :
  EProcess p n ∈ flat_map (plugin_trace plist_name top) plugins →
  n = plist_name ∧ p ∈ map plugin_name plugins.
Proof.
  induction plugins as [|q rest IH]; cbn [flat_map map].
  - by intros ?%elem_of_nil.
  - rewrite elem_of_app, elem_of_cons.
    intros [[-> ->]%EProcess_plugin_trace|Hin]; [by split; [|left]|].
    destruct (IH Hin). by split; [|right].
Qed.

(** X7. Every call of a plugin's [Process], in every run, is made with the
    base name of the file entry's name as [plist_name], never with the name
    itself. *)
Theorem plugins_get_basename lib self file_entry h :
  ∃ r, exhausts lib (Parse self file_entry) h r ∧
       ∀ p plist_name,
         EProcess p plist_name ∈ trace r →
         plist_name
         = BasenamePath (GetFileSystem file_entry) (name file_entry).
Proof.
  exists (Parse_run lib self file_entry h). split; [apply exhausts_Parse|].
  intros p n Hin.
  destruct (Parse_run_cases lib self file_entry h) as [[top Hdec]|[Hnone _]].
  - rewrite (Parse_run_decodes _ _ _ _ _ Hdec) in Hin.
    cbn [run_emit trace] in Hin. rewrite trace_consume_plugins in Hin.
    apply elem_of_app in Hin as [Hin|Hin].
    { unfold prologue in Hin. rewrite !elem_of_cons in Hin.
      destruct Hin as [?|[?|[?|[?|[?|Hin]]]]]; try done.
      by apply elem_of_nil in Hin. }
    apply elem_of_app in Hin as [Hin|Hin].
    { by apply EProcess_flat_map_plugin_trace in Hin as [-> _]. }
    destruct (all_contained _ _ _); [|by apply elem_of_nil in Hin].
    apply elem_of_cons in Hin as [?|Hin]; [done|].
    by apply elem_of_nil in Hin.
  - assert (p ∈ invoked (trace (Parse_run lib self file_entry h))) as Hp.
    { unfold invoked. apply list_elem_of_omap. by exists (EProcess p n). }
    rewrite Hnone in Hp. by apply elem_of_nil in Hp.
Qed.

(** ** The notes *)

Lemma notes_app t1 t2 : notes (t1 ++ t2) = notes t1 ++ notes t2.
Proof. apply omap_app. Qed.

Lemma notes_stamps plugin pending : notes (stamps plugin pending) = [].
Proof. induction pending as [|o pending IH]; [done|]. exact IH. Qed.

Lemma notes_flat_map_plugin_trace plist_name top plugins :
  notes (flat_map (plugin_trace plist_name top) plugins)
  = flat_map (λ p, notes (mismatch_note (ending (Process p plist_name top))))
      plugins.
Proof.
  induction plugins as [|p rest IH]; [done|]. cbn [flat_map].
  rewrite notes_app, IH. f_equal. unfold plugin_trace.
  change (?e :: ?t) with ([e] ++ t). by rewrite !notes_app, notes_stamps.
Qed.

(** X9. In a run that reaches the loop, the notes [Parse] logs are exactly
    the mismatch notes of the reached plugins, one for each iteration that
    ended with [WrongPlistPlugin], in registry order, with the two arguments
    of the signal; nothing is logged for a plugin that ends otherwise. *)
Theorem notes_are_the_mismatches lib self file_entry h top :
  decodes lib file_entry top →
  ∃ r, exhausts lib (Parse self file_entry) h r ∧
       notes (trace r)
       = flat_map
           (λ p, match ending (Process p
                                 (BasenamePath (GetFileSystem file_entry)
                                    (name file_entry)) top) with
                 | Some (WrongPlistPlugin arg0 arg1) =>
                     ["[PLIST] Wrong plugin: " +:+ arg0 +:+ " for: " +:+ arg1]
                 | _ => []
                 end)
           (reached
              (BasenamePath (GetFileSystem file_entry) (name file_entry)) top
              (itervalues (_plugins self))).
Proof.
  intros Hdec. exists (Parse_run lib self file_entry h).
  split; [apply exhausts_Parse|].
  rewrite (Parse_run_decodes _ _ _ _ _ Hdec). cbn [run_emit trace].
  rewrite trace_consume_plugins, !notes_app, notes_flat_map_plugin_trace.
  cbn [prologue notes omap app].
  assert (notes (if all_contained
                      (BasenamePath (GetFileSystem file_entry)
                         (name file_entry)) top (itervalues (_plugins self))
                 then [EClose] else []) = []) as ->.
  { by destruct (all_contained _ _ _). }
  rewrite app_nil_r. apply flat_map_ext. intros p.
  by destruct (ending (Process p _ top)) as [[]|].
Qed.

Lemma notes_are_the_mismatches_witness :
  ∃ r, exhausts (sample_imports (Return sample_document))
         (Parse (sample_parser [plugin_A; plugin_wrong; plugin_B])
            (sample_entry 42)) ∅ r ∧
       notes (trace r) = ["[PLIST] Wrong plugin: W for: com.apple.plist"].
Proof.
  destruct (notes_are_the_mismatches (sample_imports (Return sample_document))
              (sample_parser [plugin_A; plugin_wrong; plugin_B])
              (sample_entry 42) ∅ sample_document) as (r & Hr & Hnotes).
  - repeat split; simpl; (lia || reflexivity).
  - exists r. split; [exact Hr|exact Hnotes].
Defined.

(** ** Records handed out more than once *)

Lemma last_producer_nil o : last_producer o [] = None.
Proof. done. Qed.

Lemma last_producer_cons o o' plugin l :
  last_producer o ((o', plugin) :: l)
  = match last_producer o l with
    | Some later => Some later
    | None => if decide (o' = o) then Some plugin else None
    end.
Proof.
  unfold last_producer. cbn [omap list_omap fst snd].
  destruct (decide (o' = o)); [|by destruct (last _)].
  by rewrite last_cons.
Qed.

Lemma final_plugin_step h o o' plugin l :
  match last_producer o ((o', plugin) :: l) with
  | Some later => Some (PStr later)
  | None => attrs_of h o !! "plugin"
  end
  = match last_producer o l with
    | Some later => Some (PStr later)
    | None => attrs_of (set_plugin h o' plugin) o !! "plugin"
    end.
Proof.
  rewrite last_producer_cons. destruct (last_producer o l); [done|].
  destruct (decide (o' = o)) as [->|Hne].
  - unfold attrs_of, set_plugin. rewrite lookup_insert_eq. simpl.
    by rewrite lookup_insert_eq.
  - by rewrite attrs_of_set_plugin_ne.
Qed.

Lemma final_plugin_consume_records (continue : heap → run) l p pending e h o :
  (∀ h', attrs_of (final_store (continue h')) o !! "plugin"
         = match last_producer o l with
           | Some later => Some (PStr later)
           | None => attrs_of h' o !! "plugin"
           end) →
  attrs_of (final_store (consume_records continue p pending e h)) o
    !! "plugin"
  = match last_producer o
            (map (λ o', (o', plugin_name p)) pending
             ++ (if contained e then l else [])) with
    | Some later => Some (PStr later)
    | None => attrs_of h o !! "plugin"
    end.
Proof.
  intros Hk. revert h. induction pending as [|o' pending IH]; intros h.
  - cbn [consume_records map app]. destruct e as [[]|]; simpl; by rewrite ?Hk.
  - cbn [consume_records map app run_yield run_emit final_store].
    by rewrite IH, <- final_plugin_step.
Qed.

Lemma final_plugin_consume_plugins plist_name top plugins h o :
  attrs_of (final_store (consume_plugins plist_name top plugins h)) o
    !! "plugin"
  = match last_producer o
            (produced plist_name top (reached plist_name top plugins)) with
    | Some later => Some (PStr later)
    | None => attrs_of h o !! "plugin"
    end.
Proof.
  revert h. induction plugins as [|p rest IH]; intros h; [done|].
  cbn [consume_plugins reached run_emit final_store].
  rewrite (final_plugin_consume_records _ _ _ _ _ _ _ (λ h', IH h')).
  unfold produced; cbn [flat_map].
  by destruct (contained (ending (Process p plist_name top))).
Qed.

(** X8. The store of line 153 writes into the event object itself.  When an
    object is handed out more than once, by one plugin or by several, it ends
    the run attributed to the plugin that handed it out last, also for the
    consumer who received it from an earlier one; an object no reached plugin
    handed out keeps the [plugin] attribute it had. *)
Theorem last_producer_wins lib self file_entry h top o :
  decodes lib file_entry top →
  ∃ r, exhausts lib (Parse self file_entry) h r ∧
       attrs_of (final_store r) o !! "plugin"
       = match last_producer o
                 (produced
                    (BasenamePath (GetFileSystem file_entry) (name file_entry))
                    top
                    (reached
                       (BasenamePath (GetFileSystem file_entry)
                          (name file_entry)) top
                       (itervalues (_plugins self)))) with
         | Some later => Some (PStr later)
         | None => attrs_of h o !! "plugin"
         end.
Proof.
  intros Hdec. exists (Parse_run lib self file_entry h).
  split; [apply exhausts_Parse|].
  rewrite (Parse_run_decodes _ _ _ _ _ Hdec). cbn [run_emit final_store].
  apply final_plugin_consume_plugins.
Qed.

Lemma last_producer_wins_witness :
  ∃ r, exhausts (sample_imports (Return sample_document))
         (Parse (sample_parser [plugin_A; plugin_shared]) (sample_entry 42))
         ∅ r ∧
       attrs_of (final_store r) 1%nat !! "plugin" = Some (PStr "S").
Proof.
  destruct (last_producer_wins (sample_imports (Return sample_document))
              (sample_parser [plugin_A; plugin_shared]) (sample_entry 42) ∅
              sample_document 1%nat) as (r & Hr & Hfinal).
  - repeat split; simpl; (lia || reflexivity).
  - exists r. split; [exact Hr|exact Hfinal].
Defined.

Example run_shared_record :
  (λ r, (attribution (yielded r),
         attrs_of (final_store r) 1%nat !! "plugin"))
    <$> drain (sample_imports (Return sample_document)) 4
          (Parse (sample_parser [plugin_A; plugin_shared]) (sample_entry 42))
          ∅
  = Some ([(1%nat, Some (PStr "A")); (2%nat, Some (PStr "A"));
           (1%nat, Some (PStr "S"))],
          Some (PStr "S")).
Proof. vm_compute. reflexivity. Qed.
